(** * solara.hooks.use_thread: the runner thread, its monitor and its writes

    A shallow embedding of [src/solara/hooks/use_thread.py].  Every thread
    started by [run] executes [runner]; the threads share the refs
    [running_thread], [result], [error], the state cell behind
    [set_result_state], the lock and the [threading.Event]s.  A thread is a
    program counter over the lines of [runner]; one step performs at most
    one access to the shared cells, and a system step is a step of one
    thread or an action of the rendering side ([run], [cancel.set], a
    change of the render context). *)

From stdpp Require Import base list gmap strings.

Set Default Proof Using "Type".

(** ** Data *)

Definition tid := nat.

(** A [threading.Event] made by [make_event]; [cancel] is one of them. *)
Definition flag := nat.

(** Modelled from the spec: the enum [ResultState] of solara/datatypes.py,
    which is not among the sources; section 3 of the specification lists its
    seven members, and [use_thread] names each of them (lines 46, 87, 99,
    112, 138, 148 and 159). *)
Inductive ResultState :=
| INITIAL | STARTING | WAITING | RUNNING | FINISHED | ERROR | CANCELLED.

Global Instance ResultState_eq_dec : EqDecision ResultState.
Proof. solve_decision. Defined.

(** Exception objects, by the two classes the handlers of [runner] test:
    [Exception] (line 144) and [CancelledError] (line 150), which line 22
    derives from [BaseException] and not from [Exception]. *)
Inductive exn :=
| Exception (name : string)       (* an instance of Exception or of a subclass *)
| CancelledError                  (* class CancelledError(BaseException) *)
| BaseException (name : string).  (* any other BaseException, e.g. SystemExit *)

Global Instance exn_eq_dec : EqDecision exn.
Proof. solve_decision. Defined.

Definition isinstance_Exception (e : exn) : bool :=
  match e with Exception _ => true | _ => false end.

Definition isinstance_CancelledError (e : exn) : bool :=
  match e with CancelledError => true | _ => false end.

(** What [reacton.core._get_render_context(required=False)] returns is an
    object with the attribute [_is_rendering], or [None]. *)
Record render_context := { is_rendering : bool }.

(** The interpreter and the environment of the process. *)
Record runtime := {
  SOLARA_ALLOW_OTHER_TRACER : bool;  (* line 15 *)
  has_gettrace : bool;               (* hasattr(sys, "gettrace") *)
  has_settrace : bool;               (* hasattr(sys, "settrace") *)
  gettrace : bool;                   (* a new thread already has a trace hook *)
  exit_events : nat                  (* trace events while a with-block of
                                        cancel_guard is left, before line 84
                                        puts the previous hook back *)
}.

(** The program points of the identity comparison
    [threading.current_thread() == running_thread.current]. *)
Inductive site := line105 | line137 | line142 | line146 | line155.

Global Instance site_eq_dec : EqDecision site.
Proof. solve_decision. Defined.

(** ** The step hook (lines 59-70) *)

Inductive traced :=
| Raised (e : exn)                 (* line 66 *)
| KeepTracing (call_prev : bool).  (* lines 67-70; [call_prev]: line 68 ran *)

Definition tracefunc (rt : runtime) (prev : bool) (cancel_is_set : bool)
    (rc : option render_context) : traced :=
  let rest := KeepTracing (prev && SOLARA_ALLOW_OTHER_TRACER rt) in
  if cancel_is_set then
    match rc with
    | None => Raised CancelledError
    | Some c => if negb (is_rendering c) then Raised CancelledError else rest
    end
  else rest.

Section UseThread.

Context {T : Type}.
Variable rt : runtime.

(** ** User work

    The callback is known by what the runner can see of it in the run at
    hand: how many trace events its execution delivers to an installed hook,
    and how it ends.  A generator is the sequence of its pulls.  The callback
    is taken not to catch CancelledError itself, and
    [inspect.signature(callback)] (line 114) is taken to return; whether the
    Event is handed to the callback (lines 115-118) does not show in the
    cells. *)
Inductive generator :=
| GenStop (k : nat)                              (* next raises StopIteration *)
| GenYield (k : nat) (v : T) (rest : generator)  (* next returns v *)
| GenRaise (k : nat) (e : exn).                  (* next raises e, not StopIteration *)

Inductive returned :=
| Plain (v : T)
| Lazy (g : generator).   (* inspect.isgenerator(value) *)

Inductive completion :=
| Return (r : returned)
| Raise (e : exn).

Record callback := { events : nat; outcome : completion }.

Definition pull_events (g : generator) : nat :=
  match g with GenStop k | GenYield k _ _ | GenRaise k _ => k end.

(** How one [next(value)] ends. *)
Inductive pulled :=
| Yielded (rest : generator)
| Stopped
| Failed (e : exn).

(** ** Shared cells *)

Record heap := {
  running_thread : option tid;   (* running_thread.current *)
  result : option T;             (* result.current *)
  error : option exn;            (* error.current *)
  result_state : ResultState;    (* the cell written by set_result_state *)
  lock : option tid;             (* the holder of lock *)
  cancel : gset flag;            (* the Events that are set *)
  rc : option render_context     (* the render context, as the hook sees it *)
}.

Definition set_running_thread (p : option tid) (m : heap) : heap :=
  {| running_thread := p; result := result m; error := error m;
     result_state := result_state m; lock := lock m; cancel := cancel m;
     rc := rc m |}.

Definition set_result (v : option T) (m : heap) : heap :=
  {| running_thread := running_thread m; result := v; error := error m;
     result_state := result_state m; lock := lock m; cancel := cancel m;
     rc := rc m |}.

Definition set_error (e : option exn) (m : heap) : heap :=
  {| running_thread := running_thread m; result := result m; error := e;
     result_state := result_state m; lock := lock m; cancel := cancel m;
     rc := rc m |}.

Definition set_result_state (s : ResultState) (m : heap) : heap :=
  {| running_thread := running_thread m; result := result m; error := error m;
     result_state := s; lock := lock m; cancel := cancel m; rc := rc m |}.

Definition set_lock (l : option tid) (m : heap) : heap :=
  {| running_thread := running_thread m; result := result m; error := error m;
     result_state := result_state m; lock := l; cancel := cancel m;
     rc := rc m |}.

Definition set_cancel (c : flag) (m : heap) : heap :=
  {| running_thread := running_thread m; result := result m; error := error m;
     result_state := result_state m; lock := lock m;
     cancel := {[c]} ∪ cancel m; rc := rc m |}.

Definition set_rc (r : option render_context) (m : heap) : heap :=
  {| running_thread := running_thread m; result := result m; error := error m;
     result_state := result_state m; lock := lock m; cancel := cancel m;
     rc := r |}.

Definition is_set (c : flag) (m : heap) : bool := bool_decide (c ∈ cancel m).

(** [threading.current_thread() == running_thread.current] *)
Definition is_current (me : tid) (m : heap) : bool :=
  bool_decide (running_thread m = Some me).

(** ** What a step does, as the rest of the program can see it *)

Inductive event :=
| SetState (s : ResultState)       (* set_result_state(s) *)
| SetResult (v : T)                (* result.current = v *)
| SetError (e : option exn)        (* error.current = e *)
| SetPointer (p : option tid)      (* running_thread.current = p *)
| Updater                          (* updater() *)
| LogException (e : exn)           (* logger.exception(e) *)
| LogInfo (msg : string)           (* logger.info(msg) *)
| IsCurrent (l : site) (b : bool)  (* the identity comparison and its value *)
| RaiseCancelled                   (* line 66 *)
| CancelSet (c : flag).            (* cancel.set() *)

(** ** The runner (lines 89-159) *)

Inductive pc :=
| AcquireLock                             (* 91 *)
| TestCurrent                             (* 95 *)
| CopyCurrent                             (* 96 *)
| SetCurrent (w : option tid)             (* 97; w is wait_for_thread *)
| ReleaseLock (w : option tid)            (* the end of the block of 91 *)
| SetWaiting (w : tid)                    (* 99 *)
| Join (w : tid)                          (* 102 *)
| CheckAfterJoin                          (* 105 *)
| SetRunning                              (* 112 *)
| InCall (k : nat)                        (* 126, k trace events to go *)
| LeaveCall (j : nat) (c : completion)    (* leaving the block of 125 *)
| StoreValue (v : T)                      (* 140 *)
| ClearError                              (* 141 *)
| CheckFinished                           (* 142 *)
| SetFinished                             (* 143 *)
| InNext (k : nat) (g : generator)        (* next(value) of 131 *)
| StoreItem (v : T) (g : generator)       (* the assignment of 131 *)
| ClearItemError (g : generator)          (* 132 *)
| LeaveNext (j : nat) (r : pulled)        (* leaving the block of 130 *)
| CallUpdater (g : generator)             (* 136 *)
| CheckGenFinished                        (* 137 *)
| SetGenFinished                          (* 138 *)
| Handle (e : exn)                        (* the except clauses, 144 and 150 *)
| StoreError (e : exn)                    (* 145 *)
| CheckError (e : exn)                    (* 146 *)
| LogError (e : exn)                      (* 147 *)
| SetErrorState (e : exn)                     (* 148 *)
| FinallyCheck (p : option exn)           (* 155; p is an exception in flight *)
| FinallyClear (p : option exn)           (* 156 *)
| FinallyLog (p : option exn)             (* 157 *)
| FinallyFlag (p : option exn)            (* 158 *)
| FinallyCancelled (p : option exn)       (* 159 *)
| Exited (p : option exn).                (* runner is left; p escaped it *)

(** What [runner] closes over. *)
Record closure := {
  th_cancel : flag;          (* cancel, the Event of line 51 *)
  th_intrusive : bool;       (* intrusive_cancel *)
  th_callback : callback     (* callback *)
}.

Definition is_exited (p : pc) : bool :=
  match p with Exited _ => true | _ => false end.

(** cancel_guard (lines 53-84) installs the hook when it is asked to and
    the interpreter has [sys.settrace]. *)
Definition hook_installed (th : closure) : bool :=
  th_intrusive th && has_settrace rt.

(** One trace event under cancel_guard: does the hook raise?  The hook reads
    the Event and the render context in one step.  When it raises, the
    interpreter takes the hook off, so no further trace event follows. *)
Definition aborts (th : closure) (m : heap) : bool :=
  hook_installed th &&
  match tracefunc rt (has_gettrace rt && gettrace rt)
          (is_set (th_cancel th) m) (rc m) with
  | Raised _ => true
  | KeepTracing _ => false
  end.

Definition on_event (th : closure) (m : heap) (next : pc) : pc * heap * list event :=
  if aborts th m then (Handle CancelledError, m, [RaiseCancelled])
  else (next, m, []).

(** One step of the thread [me] at [p]: the next program point, the cells
    afterwards and what was done; None when the thread cannot move. *)
Definition thread_step (me : tid) (exited : tid -> bool) (th : closure) (p : pc)
    (m : heap) : option (pc * heap * list event) :=
  match p with
  | AcquireLock =>
      match lock m with
      | None => Some (TestCurrent, set_lock (Some me) m, [])
      | Some _ => None
      end
  | TestCurrent =>
      Some (match running_thread m with
            | Some _ => CopyCurrent
            | None => SetCurrent None
            end, m, [])
  | CopyCurrent => Some (SetCurrent (running_thread m), m, [])
  | SetCurrent w =>
      Some (ReleaseLock w, set_running_thread (Some me) m, [SetPointer (Some me)])
  | ReleaseLock w =>
      Some (match w with Some p => SetWaiting p | None => SetRunning end,
            set_lock None m, [])
  | SetWaiting w => Some (Join w, set_result_state WAITING m, [SetState WAITING])
  | Join w => if exited w then Some (CheckAfterJoin, m, []) else None
  | CheckAfterJoin =>
      let b := is_current me m in
      Some (if b then SetRunning else Exited None, m, [IsCurrent line105 b])
  | SetRunning =>
      Some (InCall (events (th_callback th)), set_result_state RUNNING m,
            [SetState RUNNING])
  | InCall (S k) => Some (on_event th m (InCall k))
  | InCall 0 => Some (LeaveCall (exit_events rt) (outcome (th_callback th)), m, [])
  | LeaveCall (S j) c => Some (on_event th m (LeaveCall j c))
  | LeaveCall 0 (Return (Plain v)) => Some (StoreValue v, m, [])
  | LeaveCall 0 (Return (Lazy g)) => Some (InNext (pull_events g) g, m, [])
  | LeaveCall 0 (Raise e) => Some (Handle e, m, [])
  | StoreValue v => Some (ClearError, set_result (Some v) m, [SetResult v])
  | ClearError => Some (CheckFinished, set_error None m, [SetError None])
  | CheckFinished =>
      let b := is_current me m in
      Some (if b then SetFinished else FinallyCheck None, m, [IsCurrent line142 b])
  | SetFinished =>
      Some (FinallyCheck None, set_result_state FINISHED m, [SetState FINISHED])
  | InNext (S k) g => Some (on_event th m (InNext k g))
  | InNext 0 (GenYield _ v rest) => Some (StoreItem v rest, m, [])
  | InNext 0 (GenStop _) => Some (LeaveNext (exit_events rt) Stopped, m, [])
  | InNext 0 (GenRaise _ e) => Some (LeaveNext (exit_events rt) (Failed e), m, [])
  | StoreItem v rest => Some (ClearItemError rest, set_result (Some v) m, [SetResult v])
  | ClearItemError rest =>
      Some (LeaveNext (exit_events rt) (Yielded rest), set_error None m, [SetError None])
  | LeaveNext (S j) r => Some (on_event th m (LeaveNext j r))
  | LeaveNext 0 (Yielded rest) => Some (CallUpdater rest, m, [])
  | LeaveNext 0 Stopped => Some (CheckGenFinished, m, [])
  | LeaveNext 0 (Failed e) => Some (Handle e, m, [])
  | CallUpdater rest => Some (InNext (pull_events rest) rest, m, [Updater])
  | CheckGenFinished =>
      let b := is_current me m in
      Some (if b then SetGenFinished else FinallyCheck None, m, [IsCurrent line137 b])
  | SetGenFinished =>
      Some (FinallyCheck None, set_result_state FINISHED m, [SetState FINISHED])
  | Handle e =>
      Some (if isinstance_Exception e then StoreError e
            else if isinstance_CancelledError e then FinallyCheck None
            else FinallyCheck (Some e), m, [])
  | StoreError e => Some (CheckError e, set_error (Some e) m, [SetError (Some e)])
  | CheckError e =>
      let b := is_current me m in
      Some (if b then LogError e else FinallyCheck None, m, [IsCurrent line146 b])
  | LogError e => Some (SetErrorState e, m, [LogException e])
  | SetErrorState e => Some (FinallyCheck None, set_result_state ERROR m, [SetState ERROR])
  | FinallyCheck p =>
      let b := is_current me m in
      Some (if b then FinallyClear p else Exited p, m, [IsCurrent line155 b])
  | FinallyClear p => Some (FinallyLog p, set_running_thread None m, [SetPointer None])
  | FinallyLog p => Some (FinallyFlag p, m, [LogInfo "thread done!"])
  | FinallyFlag p =>
      Some (if is_set (th_cancel th) m then FinallyCancelled p else Exited p, m, [])
  | FinallyCancelled p =>
      Some (Exited p, set_result_state CANCELLED m, [SetState CANCELLED])
  | Exited _ => None
  end.

(** ** The process: the threads, the cells and what happened so far

    [run] (lines 86-168) is one action of the rendering thread: it sets
    STARTING, logs and starts the thread; a thread that is started and not
    scheduled stands before line 91.  An action that cannot happen (a step
    of a thread that waits for the lock or for the join, or that has left
    [runner]) leaves the process as it is. *)

Record system := {
  mem : heap;
  threads : list (closure * pc);         (* the thread of id t is at index t *)
  hist : list (option tid * event)       (* newest first; None: the renderer *)
}.

Inductive action :=
| Step (t : tid)                                     (* thread t runs one step *)
| Run (c : flag) (intrusive : bool) (cb : callback)  (* run(), lines 86-168 *)
| Cancel (c : flag)                                  (* cleanup() / Result.cancel *)
| Render (r : option render_context).                (* the renderer moves on *)

Definition exited_in (σ : system) (t : tid) : bool :=
  match threads σ !! t with
  | Some (_, p) => is_exited p
  | None => false
  end.

Definition by_thread (t : tid) (evs : list event) : list (option tid * event) :=
  map (pair (Some t)) evs.

Definition spawn (c : flag) (intrusive : bool) (cb : callback) : closure * pc :=
  ({| th_cancel := c; th_intrusive := intrusive; th_callback := cb |}, AcquireLock).

Definition act (a : action) (σ : system) : system :=
  match a with
  | Step t =>
      match threads σ !! t with
      | Some (th, p) =>
          match thread_step t (exited_in σ) th p (mem σ) with
          | Some (p', m, evs) =>
              {| mem := m; threads := <[t := (th, p')]> (threads σ);
                 hist := by_thread t evs ++ hist σ |}
          | None => σ
          end
      | None => σ
      end
  | Run c intrusive cb =>
      {| mem := set_result_state STARTING (mem σ);
         threads := threads σ ++ [spawn c intrusive cb];
         hist := (None, LogInfo "starting thread: %r") :: (None, SetState STARTING) :: hist σ |}
  | Cancel c =>
      {| mem := set_cancel c (mem σ); threads := threads σ;
         hist := (None, CancelSet c) :: hist σ |}
  | Render r =>
      {| mem := set_rc r (mem σ); threads := threads σ; hist := hist σ |}
  end.

Definition exec (sched : list action) (σ : system) : system :=
  fold_left (fun s a => act a s) sched σ.

(** The hook [use_thread] before its first effect: the refs hold None and
    the state is INITIAL (lines 46-49). *)
Definition initial : system :=
  {| mem := {| running_thread := None; result := None; error := None;
               result_state := INITIAL; lock := None; cancel := ∅; rc := None |};
     threads := []; hist := [] |}.

(** ** The events of one thread *)

(** The events of thread [t] in a history, newest first. *)
Fixpoint trail (t : tid) (h : list (option tid * event)) : list event :=
  match h with
  | [] => []
  | (who, e) :: h' =>
      if decide (who = Some t) then e :: trail t h' else trail t h'
  end.

Definition is_running_write (e : event) : bool :=
  match e with SetState RUNNING => true | _ => false end.

(** The thread has written RUNNING (line 112). *)
Definition started (tr : list event) : bool := existsb is_running_write tr.

(** The newest state this thread wrote. *)
Fixpoint last_state (tr : list event) : option ResultState :=
  match tr with
  | [] => None
  | SetState s :: _ => Some s
  | _ :: past => last_state past
  end.






Definition is_finally_check (e : event) : bool :=
  match e with IsCurrent line155 _ => true | _ => false end.

(** How often the thread evaluated the comparison of line 155. *)
Fixpoint finally_checks (tr : list event) : nat :=
  match tr with
  | [] => 0
  | e :: past => (if is_finally_check e then 1 else 0) + finally_checks past
  end.

(** Every write of CANCELLED is the last statement of the cleanup of lines
    155-159, and the state this thread wrote before it is RUNNING, FINISHED
    or ERROR. *)
Fixpoint cancelled_in_cleanup (tr : list event) : Prop :=
  match tr with
  | [] => True
  | SetState CANCELLED :: past =>
      (exists past',
         past = LogInfo "thread done!" :: SetPointer None
                  :: IsCurrent line155 true :: past'
         /\ (last_state past' = Some RUNNING \/ last_state past' = Some FINISHED
             \/ last_state past' = Some ERROR))
      /\ cancelled_in_cleanup past
  | _ :: past => cancelled_in_cleanup past
  end.

(** An upper bound of the steps a thread still takes; it does not count the
    time a thread stands before the lock or the join. *)
Fixpoint gen_rest (g : generator) : nat :=
  match g with
  | GenStop _ | GenRaise _ _ => exit_events rt + 12
  | GenYield _ _ rest => exit_events rt + 16 + pull_events rest + gen_rest rest
  end.

Definition remaining (th : closure) (p : pc) : nat :=
  let pull g := pull_events g + gen_rest g in
  let leave_call j c :=
    j + 11 + match c with Return (Lazy g) => pull g | _ => 0 end in
  let leave_next j r :=
    j + 11 + match r with Yielded g => 2 + pull g | _ => 0 end in
  let in_call k :=
    k + 1 + leave_call (exit_events rt) (outcome (th_callback th)) in
  match p with
  | AcquireLock => 9 + in_call (events (th_callback th))
  | TestCurrent => 8 + in_call (events (th_callback th))
  | CopyCurrent => 7 + in_call (events (th_callback th))
  | SetCurrent _ => 6 + in_call (events (th_callback th))
  | ReleaseLock _ => 5 + in_call (events (th_callback th))
  | SetWaiting _ => 4 + in_call (events (th_callback th))
  | Join _ => 3 + in_call (events (th_callback th))
  | CheckAfterJoin => 2 + in_call (events (th_callback th))
  | SetRunning => 1 + in_call (events (th_callback th))
  | InCall k => in_call k
  | LeaveCall j c => leave_call j c
  | StoreValue _ => 9
  | ClearError => 8
  | CheckFinished => 7
  | SetFinished => 6
  | InNext k g => k + gen_rest g
  | StoreItem _ g => 2 + leave_next (exit_events rt) (Yielded g)
  | ClearItemError g => 1 + leave_next (exit_events rt) (Yielded g)
  | LeaveNext j r => leave_next j r
  | CallUpdater g => 1 + pull g
  | CheckGenFinished => 7
  | SetGenFinished => 6
  | Handle _ => 10
  | StoreError _ => 9
  | CheckError _ => 8
  | LogError _ => 7
  | SetErrorState _ => 6
  | FinallyCheck _ => 5
  | FinallyClear _ => 4
  | FinallyLog _ => 3
  | FinallyFlag _ => 2
  | FinallyCancelled _ => 1
  | Exited _ => 0
  end.

(** The thread has passed the lock and the join: from here on no step of
    it waits for anything. *)
Definition past_join (p : pc) : bool :=
  match p with
  | AcquireLock | TestCurrent | CopyCurrent | SetCurrent _ | ReleaseLock _
  | SetWaiting _ | Join _ | CheckAfterJoin => false
  | _ => true
  end.

Definition is_step_of (t : tid) (a : action) : bool :=
  match a with Step t' => bool_decide (t' = t) | _ => false end.

(** How many steps of thread [t] a schedule holds. *)
Definition step_count (t : tid) (sched : list action) : nat :=
  length (filter (fun a => is_step_of t a = true) sched).

(** ** A thread running undisturbed

    [runs me th n p m evs p' m']: from [p] with the cells [m], [n] steps of
    the thread, nothing else moving, lead to [p'] and [m'] and do [evs]
    (oldest first). *)
Inductive runs (me : tid) (th : closure)
    : nat -> pc -> heap -> list event -> pc -> heap -> Prop :=
| runs_done p m : runs me th 0 p m [] p m
| runs_step n p m p1 m1 evs p' m' evs' :
    thread_step me (fun _ => false) th p m = Some (p1, m1, evs) ->
    runs me th n p1 m1 evs' p' m' ->
    runs me th (S n) p m (rev evs ++ evs') p' m'.

(** ** What [runner] does, said from its text

    The events of one undisturbed run from line 112 on, oldest first, for a
    thread whose comparisons with [running_thread.current] give [auth] and
    whose Event reads [cancelled] at line 158. *)
Definition handler_events (auth : bool) (e : exn) : list event :=
  if isinstance_Exception e then
    SetError (Some e) :: IsCurrent line146 auth
      :: (if auth then [LogException e; SetState ERROR] else [])
  else [].

Fixpoint loop_events (auth : bool) (g : generator) : list event :=
  match g with
  | GenStop _ =>
      IsCurrent line137 auth :: (if auth then [SetState FINISHED] else [])
  | GenYield _ v rest =>
      SetResult v :: SetError None :: Updater :: loop_events auth rest
  | GenRaise _ e => handler_events auth e
  end.

Definition body_events (auth : bool) (c : completion) : list event :=
  match c with
  | Return (Plain v) =>
      SetResult v :: SetError None :: IsCurrent line142 auth
        :: (if auth then [SetState FINISHED] else [])
  | Return (Lazy g) => loop_events auth g
  | Raise e => handler_events auth e
  end.

Definition finally_events (auth cancelled : bool) : list event :=
  IsCurrent line155 auth
    :: (if auth then
          SetPointer None :: LogInfo "thread done!"
            :: (if cancelled then [SetState CANCELLED] else [])
        else []).

Definition runner_events (auth cancelled : bool) (c : completion) : list event :=
  SetState RUNNING :: body_events auth c ++ finally_events auth cancelled.

(** The exception that leaves [runner]: one that is neither an Exception
    nor a CancelledError. *)
Definition escapes_handlers (e : exn) : option exn :=
  if isinstance_Exception e then None
  else if isinstance_CancelledError e then None
  else Some e.

Fixpoint loop_escapes (g : generator) : option exn :=
  match g with
  | GenStop _ => None
  | GenYield _ _ rest => loop_escapes rest
  | GenRaise _ e => escapes_handlers e
  end.

Definition escapes (c : completion) : option exn :=
  match c with
  | Return (Plain _) => None
  | Return (Lazy g) => loop_escapes g
  | Raise e => escapes_handlers e
  end.

(** The cells after an event. *)
Definition apply_event (m : heap) (e : event) : heap :=
  match e with
  | SetState s => set_result_state s m
  | SetResult v => set_result (Some v) m
  | SetError e => set_error e m
  | SetPointer p => set_running_thread p m
  | CancelSet c => set_cancel c m
  | _ => m
  end.

Definition apply_events (evs : list event) (m : heap) : heap :=
  fold_left apply_event evs m.

(** The values a callback publishes, in the order it produces them. *)
Fixpoint items (g : generator) : list T :=
  match g with
  | GenYield _ v rest => v :: items rest
  | _ => []
  end.

(** A generator that yields [vs] and goes on as [tail]. *)
Fixpoint yields (vs : list (nat * T)) (tail : generator) : generator :=
  match vs with
  | [] => tail
  | (k, v) :: vs' => GenYield k v (yields vs' tail)
  end.

(** The publication of one item: lines 131, 132 and 136. *)
Definition publish (v : T) : list event := [SetResult v; SetError None; Updater].

Fixpoint publish_all (vs : list T) : list event :=
  match vs with
  | [] => []
  | v :: vs' => publish v ++ publish_all vs'
  end.

Definition is_publication (e : event) : bool :=
  match e with SetResult _ | SetError None | Updater => true | _ => false end.

(** The events of publication in a trail, oldest first. *)
Fixpoint publications (tr : list event) : list event :=
  match tr with
  | [] => []
  | e :: past => publications past ++ (if is_publication e then [e] else [])
  end.

Definition is_abort (e : event) : bool :=
  match e with RaiseCancelled => true | _ => false end.

(** The hook has raised in this thread. *)
Definition aborted (tr : list event) : bool := existsb is_abort tr.

(** The events of the cleanup of lines 155-159. *)
Definition is_cleanup (e : event) : bool :=
  match e with
  | IsCurrent line155 _ | SetPointer None | LogInfo _ | SetState CANCELLED => true
  | _ => false
  end.

(** Whatever the thread does after the hook raised is cleanup. *)
Fixpoint swallowed (tr : list event) : Prop :=
  match tr with
  | [] => True
  | e :: past => (aborted past = true -> is_cleanup e = true) /\ swallowed past
  end.

(** Only instances of Exception are stored in [error.current] or logged. *)
Definition ordinary (e : event) : Prop :=
  match e with
  | SetError (Some x) | LogException x => isinstance_Exception x = true
  | _ => True
  end.

(** Every write of ERROR is the statement of line 148, after the exception
    was stored, the thread found current, and the exception logged. *)
Fixpoint error_from_exception (tr : list event) : Prop :=
  match tr with
  | [] => True
  | SetState ERROR :: past =>
      (exists x past',
         past = LogException x :: IsCurrent line146 true
                  :: SetError (Some x) :: past'
         /\ isinstance_Exception x = true)
      /\ error_from_exception past
  | _ :: past => error_from_exception past
  end.

(** What the observer reads: [Result.state], [Result.value], [Result.error]. *)
Definition observed (σ : system) : ResultState * option T * option exn :=
  (result_state (mem σ), result (mem σ), error (mem σ)).

Definition runs_on (c : flag) (a : action) : bool :=
  match a with Run c' _ _ => bool_decide (c' = c) | _ => false end.

(** ** Two sentences of the specification, as they are written *)


(** The state becomes CANCELLED from RUNNING only. *)
Definition cancelled_from_running_only : Prop :=
  forall sched a,
    let σ := exec sched initial in
    result_state (mem (act a σ)) = CANCELLED ->
    result_state (mem σ) = RUNNING \/ result_state (mem σ) = CANCELLED.

(** ** Invariants: where a thread stands, read off its own events *)


(** The newest state the thread wrote is one of the body of [runner]. *)
Definition wrote_work_state (tr : list event) : Prop :=
  last_state tr = Some RUNNING \/ last_state tr = Some FINISHED
  \/ last_state tr = Some ERROR.

(** Before line 112 the thread has not written RUNNING; from there to line
    155 it has, and has not yet compared itself at line 155; in the cleanup
    it has done so once. *)
Definition cleanup_phase (p : pc) (tr : list event) : Prop :=
  match p with
  | AcquireLock | TestCurrent | CopyCurrent | SetCurrent _ | ReleaseLock _
  | SetWaiting _ | Join _ | CheckAfterJoin | SetRunning =>
      started tr = false /\ finally_checks tr = 0
  | FinallyClear _ =>
      started tr = true /\ finally_checks tr = 1 /\
      exists past, tr = IsCurrent line155 true :: past /\ wrote_work_state past
  | FinallyLog _ =>
      started tr = true /\ finally_checks tr = 1 /\
      exists past, tr = SetPointer None :: IsCurrent line155 true :: past
                   /\ wrote_work_state past
  | FinallyFlag _ | FinallyCancelled _ =>
      started tr = true /\ finally_checks tr = 1 /\
      exists past, tr = LogInfo "thread done!" :: SetPointer None
                          :: IsCurrent line155 true :: past
                   /\ wrote_work_state past
  | Exited _ => finally_checks tr = if started tr then 1 else 0
  | _ => started tr = true /\ finally_checks tr = 0 /\ wrote_work_state tr
  end.

(** The thread stands before line 159. *)
Definition about_to_cancel (p : pc) : bool :=
  match p with FinallyCancelled _ => true | _ => false end.

(** Thread [t] stood at line 158 while its Event was set, and took its step
    there: the schedule splits at that step. *)
Definition read_flag_set (sched : list action) (t : tid) (th : closure) : Prop :=
  exists sched1 sched2 q,
    sched = sched1 ++ Step t :: sched2
    /\ threads (exec sched1 initial) !! t = Some (th, FinallyFlag q)
    /\ is_set (th_cancel th) (mem (exec sched1 initial)) = true.

(** At the handler of line 144 the exception is an instance of Exception
    and the hook has not raised; once the hook has raised, the thread is at
    the handlers with CancelledError, or in the cleanup. *)
Definition handling (p : pc) (tr : list event) : Prop :=
  match p with
  | Handle e => aborted tr = true -> e = CancelledError
  | StoreError e => isinstance_Exception e = true /\ aborted tr = false
  | CheckError e =>
      isinstance_Exception e = true /\ aborted tr = false /\
      exists past, tr = SetError (Some e) :: past
  | LogError e =>
      isinstance_Exception e = true /\ aborted tr = false /\
      exists past, tr = IsCurrent line146 true :: SetError (Some e) :: past
  | SetErrorState e =>
      isinstance_Exception e = true /\ aborted tr = false /\
      exists past, tr = LogException e :: IsCurrent line146 true
                          :: SetError (Some e) :: past
  | FinallyCheck _ | FinallyClear _ | FinallyLog _ | FinallyFlag _
  | FinallyCancelled _ | Exited _ => True
  | _ => aborted tr = false
  end.

(** The invariant of the handlers. *)
Definition handled (p : pc) (tr : list event) : Prop :=
  Forall ordinary tr /\ error_from_exception tr /\ swallowed tr /\ handling p tr.

(** The comparison of line 105 found the thread superseded. *)
Definition is_lost_join (e : event) : bool :=
  match e with IsCurrent line105 false => true | _ => false end.

(** The events of a thread up to and including line 105. *)
Definition waiting (t : tid) (p : pc) (tr : list event) : Prop :=
  match p with
  | AcquireLock | TestCurrent | CopyCurrent | SetCurrent _ => tr = []
  | ReleaseLock _ | SetWaiting _ => tr = [SetPointer (Some t)]
  | Join _ | CheckAfterJoin => tr = [SetState WAITING; SetPointer (Some t)]
  | Exited q =>
      existsb is_lost_join tr = true ->
      q = None /\ tr = [IsCurrent line105 false; SetState WAITING; SetPointer (Some t)]
  | _ => existsb is_lost_join tr = false
  end.

(** ** Runs of one thread with the step count left open *)

Definition reaches (me : tid) th p m (evs : list event) p' m' : Prop :=
  exists n, runs me th n p m evs p' m'.

(** [performs]: the cells afterwards are the cells after the events. *)
Definition performs (me : tid) th p m (evs : list event) p' : Prop :=
  reaches me th p m evs p' (apply_events evs m).

(** Events that leave [running_thread.current] and the Events alone. *)
Definition keeps_pointer_and_flag (e : event) : Prop :=
  match e with SetPointer _ | CancelSet _ => False | _ => True end.

(** What is still to be published, by where the thread stands; None when
    the loop is left. *)
Definition to_publish (g : generator) (p : pc) : option (list event) :=
  match p with
  | AcquireLock | TestCurrent | CopyCurrent | SetCurrent _ | ReleaseLock _
  | SetWaiting _ | Join _ | CheckAfterJoin | SetRunning | InCall _ =>
      Some (publish_all (items g))
  | LeaveCall _ (Return (Lazy g')) =>
      Some (publish_all (items g'))
  | InNext _ g' => Some (publish_all (items g'))
  | StoreItem v g' => Some (publish v ++ publish_all (items g'))
  | ClearItemError g' => Some (SetError None :: Updater :: publish_all (items g'))
  | LeaveNext _ (Yielded g') | CallUpdater g' =>
      Some (Updater :: publish_all (items g'))
  | _ => None
  end.

(** What a thread with a generator callback has published, and what it
    still has to, make up the publication of all items in order. *)
Definition in_order (th : closure) (p : pc) (tr : list event) : Prop :=
  forall g, outcome (th_callback th) = Return (Lazy g) ->
    match p with
    | LeaveCall _ c => c = Return (Lazy g)
    | StoreValue _ | ClearError | CheckFinished | SetFinished => False
    | _ => True
    end
    /\ exists rest,
         publish_all (items g) = publications tr ++ rest
         /\ match to_publish g p with Some l => rest = l | None => True end.

(** The cells agree but for the Event [c]. *)
Definition agree_off (c : flag) (m1 m2 : heap) : Prop :=
  running_thread m1 = running_thread m2 /\ result m1 = result m2 /\
  error m1 = error m2 /\ result_state m1 = result_state m2 /\
  lock m1 = lock m2 /\ rc m1 = rc m2 /\
  forall c', c' <> c -> is_set c' m1 = is_set c' m2.

(** Every thread that closes over the Event [c] has left [runner]. *)
Definition lineage_exited (c : flag) (ths : list (closure * pc)) : Prop :=
  forall t th p, ths !! t = Some (th, p) -> th_cancel th = c -> is_exited p = true.

(** Two processes that differ in the Event [c] at most, none of whose
    threads reads it any more. *)
Definition same_but_event (c : flag) (σ1 σ2 : system) : Prop :=
  agree_off c (mem σ1) (mem σ2) /\ threads σ1 = threads σ2
  /\ lineage_exited c (threads σ1).

(** The lines between the assignment of line 97 and the one of line 156. *)
Definition holds_pointer (p : pc) : bool :=
  match p with
  | AcquireLock | TestCurrent | CopyCurrent | SetCurrent _
  | FinallyLog _ | FinallyFlag _ | FinallyCancelled _ | Exited _ => false
  | _ => true
  end.

(** ** The hand-over, the Events and the life of a thread *)

(** A step of some thread. *)
Definition is_step_of_any (a : action) : bool :=
  match a with Step _ => true | _ => false end.

(** Inside the block of line 91. *)
Definition in_lock (p : pc) : bool :=
  match p with
  | TestCurrent | CopyCurrent | SetCurrent _ | ReleaseLock _ => true
  | _ => false
  end.

(** [wait_for_thread], as far as the thread still needs it. *)
Definition waits_for (p : pc) : option tid :=
  match p with
  | SetCurrent w | ReleaseLock w => w
  | SetWaiting w | Join w => Some w
  | _ => None
  end.

(** The lock is held by the one thread that is inside the block of line 91. *)
Definition lock_held_inside (σ : system) : Prop :=
  (forall t, lock (mem σ) = Some t ->
     exists th p, threads σ !! t = Some (th, p) /\ in_lock p = true)
  /\ (forall t th p, threads σ !! t = Some (th, p) -> in_lock p = true ->
        lock (mem σ) = Some t).

(** No run has happened yet. *)
Definition untouched (σ : system) : Prop :=
  threads σ = [] /\ result_state (mem σ) = INITIAL.

(** The states a thread wrote, oldest first. *)
Fixpoint states (tr : list event) : list ResultState :=
  match tr with
  | [] => []
  | SetState s :: past => states past ++ [s]
  | _ :: past => states past
  end.

(** The sequences of states one thread can write: WAITING if it had a
    predecessor, RUNNING, then FINISHED or ERROR, then CANCELLED, each of the
    later ones or none. *)
Definition lifecycle (l : list ResultState) : bool :=
  let body l :=
    match l with
    | [] | [RUNNING] | [RUNNING; FINISHED] | [RUNNING; ERROR]
    | [RUNNING; CANCELLED] | [RUNNING; FINISHED; CANCELLED]
    | [RUNNING; ERROR; CANCELLED] => true
    | _ => false
    end in
  match l with
  | WAITING :: l' => body l'
  | _ => body l
  end.

(** The states written so far, by where the thread stands. *)
Definition stage (p : pc) (l : list ResultState) : Prop :=
  match p with
  | AcquireLock | TestCurrent | CopyCurrent | SetCurrent _ | ReleaseLock _
  | SetWaiting _ => l = []
  | Join _ | CheckAfterJoin => l = [WAITING]
  | SetRunning => l = [] \/ l = [WAITING]
  | FinallyCheck _ | FinallyClear _ | FinallyLog _ | FinallyFlag _
  | FinallyCancelled _ =>
      exists (w : bool) (mid : list ResultState),
        l = (if w then [WAITING] else []) ++ RUNNING :: mid
        /\ (mid = [] \/ mid = [FINISHED] \/ mid = [ERROR])
  | Exited _ => lifecycle l = true /\ l <> []
  | _ => l = [RUNNING] \/ l = [WAITING; RUNNING]
  end.

(** No thread writes INITIAL or STARTING. *)
Definition thread_state (e : event) : Prop :=
  match e with
  | SetState s => s <> INITIAL /\ s <> STARTING
  | _ => True
  end.

(** The assignment of line 97 by thread [t]. *)
Definition is_registration (t : tid) (x : option tid * event) : bool :=
  match x with
  | (Some t', SetPointer (Some _)) => bool_decide (t' = t)
  | _ => false
  end.

(** When thread [t] executed line 97, counted in events from the start of
    the history; 0 when it has not. *)
Fixpoint stamp (t : tid) (h : list (option tid * event)) : nat :=
  match h with
  | [] => 0
  | x :: h' => if is_registration t x then S (length h') else stamp t h'
  end.

(** The thread has executed line 97. *)
Definition registered (p : pc) : bool :=
  match p with
  | AcquireLock | TestCurrent | CopyCurrent | SetCurrent _ => false
  | _ => true
  end.

(** Who is current, and whom a thread waits for, has executed line 97, and
    did so before the thread that waits for it. *)
Definition handover_order (σ : system) : Prop :=
  (forall w, running_thread (mem σ) = Some w -> 0 < stamp w (hist σ))
  /\ (forall t th p, threads σ !! t = Some (th, p) ->
        (registered p = false -> stamp t (hist σ) = 0)
        /\ (registered p = true -> 0 < stamp t (hist σ))
        /\ (forall w, waits_for p = Some w ->
              0 < stamp w (hist σ)
              /\ (registered p = true -> stamp w (hist σ) < stamp t (hist σ))))
  /\ (forall t, length (threads σ) <= t -> stamp t (hist σ) = 0).

(** Some thread of the process can take a step. *)
Definition can_move (σ : system) : Prop :=
  exists t th p x,
    threads σ !! t = Some (th, p)
    /\ thread_step t (exited_in σ) th p (mem σ) = Some x.

(** ** Where the published values come from *)

(** The values a callback returns or yields. *)
Definition produced (cb : callback) : list T :=
  match outcome cb with
  | Return (Plain v) => [v]
  | Return (Lazy g) => items g
  | Raise _ => []
  end.

(** The exception a generator ends with, if it ends with one. *)
Fixpoint gen_raised (g : generator) : option exn :=
  match g with
  | GenStop _ => None
  | GenYield _ _ rest => gen_raised rest
  | GenRaise _ e => Some e
  end.

(** The exception a callback raises. *)
Definition raised (cb : callback) : option exn :=
  match outcome cb with
  | Return (Plain _) => None
  | Return (Lazy g) => gen_raised g
  | Raise e => Some e
  end.

(** What is left of the generator of the callback. *)
Definition rest_of (cb : callback) (g : generator) : Prop :=
  (forall v, In v (items g) -> In v (produced cb))
  /\ (forall e, gen_raised g = Some e -> raised cb = Some e).

(** What a thread has written into [result] and [error], and what it is
    about to write, comes from its callback. *)
Definition sourced (th : closure) (p : pc) (tr : list event) : Prop :=
  (forall v, In (SetResult v) tr -> In v (produced (th_callback th)))
  /\ (forall e, In (SetError (Some e)) tr -> raised (th_callback th) = Some e)
  /\ match p with
     | LeaveCall _ c => c = outcome (th_callback th)
     | StoreValue v => In v (produced (th_callback th))
     | InNext _ g | ClearItemError g | LeaveNext _ (Yielded g) | CallUpdater g =>
         rest_of (th_callback th) g
     | StoreItem v g =>
         In v (produced (th_callback th)) /\ rest_of (th_callback th) g
     | LeaveNext _ (Failed e) | StoreError e => raised (th_callback th) = Some e
     | Handle e => raised (th_callback th) = Some e \/ e = CancelledError
     | _ => True
     end.

(** ** One effect after another *)

(** Nothing is going on: no thread is current and the lock is free. *)
Definition quiescent (σ : system) : Prop :=
  running_thread (mem σ) = None /\ lock (mem σ) = None.

(** The closure of a run. *)
Definition closure_for (c : flag) (intrusive : bool) (cb : callback) : closure :=
  {| th_cancel := c; th_intrusive := intrusive; th_callback := cb |}.

(** One effect: the Event of line 51, [intrusive_cancel], the callback and
    the number of steps its thread is given. *)
Definition effect : Type := flag * bool * callback * nat.

Definition event_of (r : effect) : flag := r.1.1.1.

(** Effects in turn, as [use_side_effect] (line 170) goes through them when
    the dependencies change: [run], then steps of the thread it started,
    then the cleanup of line 166; [next] is the id the first of these
    threads gets. *)
Fixpoint in_turn (next : tid) (rs : list effect) : list action :=
  match rs with
  | [] => []
  | (c, intrusive, cb, n) :: rs' =>
      Run c intrusive cb :: repeat (Step next) n
        ++ Cancel c :: in_turn (S next) rs'
  end.

(** The thread of an effect gets the steps it needs. *)
Definition enough_steps (r : effect) : Prop :=
  let '(c, intrusive, cb, n) := r in
  4 + remaining (closure_for c intrusive cb) SetRunning <= n.

(** The thread of an effect after it has left [runner]. *)
Definition finished_thread (r : effect) : closure * pc :=
  let '(c, intrusive, cb, _) := r in
  (closure_for c intrusive cb, Exited (escapes (outcome cb))).

End UseThread.

(** ** A process and some callbacks to run the model on *)

(** CPython: [sys.settrace] and [sys.gettrace] exist, a new thread has no
    hook, and leaving the guarded block delivers one trace event. *)
Definition cpython : runtime :=
  {| SOLARA_ALLOW_OTHER_TRACER := false; has_gettrace := true;
     has_settrace := true; gettrace := false; exit_events := 1 |}.

Definition returns_42 : @callback nat :=
  {| events := 2; outcome := Return (Plain 42) |}.

Definition returns_7 : @callback nat :=
  {| events := 0; outcome := Return (Plain 7) |}.

Definition yields_1_2_3 : @callback nat :=
  {| events := 1;
     outcome := Return (Lazy (yields [(1, 1); (0, 2); (2, 3)] (GenStop 1))) |}.

Definition yields_10_20_fails : @callback nat :=
  {| events := 0;
     outcome := Return (Lazy (yields [(1, 10); (1, 20)]
                                (GenRaise 1 (Exception "ValueError")))) |}.

Definition closure_of (c : flag) (intrusive : bool) (cb : @callback nat)
    : @closure nat :=
  {| th_cancel := c; th_intrusive := intrusive; th_callback := cb |}.

(** Thread 0 is started and has reached line 112. *)
Definition until_running (intrusive : bool) (cb : @callback nat) : list (@action nat) :=
  Run 0 intrusive cb :: repeat (Step 0) 4.




(** The callback has returned and the guarded block is left; cancel() is
    called; the thread stores 42, sets FINISHED and stands before line 159. *)
Definition cancelled_after_return : list (@action nat) :=
  Run 0 true returns_42 :: repeat (Step 0) 10 ++ [Cancel 0] ++ repeat (Step 0) 8.

(** Three runs in a row: thread 1 waits for thread 0, thread 2 takes over
    and waits for thread 1; thread 0 ends, and thread 1 returns from the
    join. *)
Definition two_supersessions : list (@action nat) :=
  Run 0 true returns_42 :: repeat (Step 0) 4
    ++ [Cancel 0; Run 1 true returns_7] ++ repeat (Step 1) 6
    ++ [Cancel 1; Run 2 true returns_7] ++ repeat (Step 2) 6
    ++ repeat (Step 0) 20 ++ repeat (Step 1) 2.

(** A callback that is interrupted: the exception is no instance of
    Exception. *)
Definition interrupted : @callback nat :=
  {| events := 1; outcome := Raise (BaseException "KeyboardInterrupt") |}.

(** Thread 0 has reached line 112; the effect is cleaned up and run again,
    and thread 1 stands in the join of line 102. *)
Definition waiting_for_first : list (@action nat) :=
  Run 0 true returns_42 :: repeat (Step 0) 4
    ++ [Cancel 0; Run 1 true returns_7] ++ repeat (Step 1) 6.

(** Two effects in turn, the second on a fresh Event. *)
Definition two_effects : list (@effect nat) :=
  [(0, true, returns_42, 24); (1, true, returns_7, 24)].

Section Facts.

Context {T : Type}.
Variable rt : runtime.

Implicit Types (σ : @system T) (th : @closure T) (p : @pc T) (m : @heap T)
  (tr : list (@event T)) (a : @action T) (sched : list (@action T)).

Lemma exec_snoc sched a σ : exec rt (sched ++ [a]) σ = act rt a (exec rt sched σ).
Proof. unfold exec. by rewrite fold_left_app. Qed.

Lemma exec_app sched sched' σ :
  exec rt (sched ++ sched') σ = exec rt sched' (exec rt sched σ).
Proof. unfold exec. by rewrite fold_left_app. Qed.

Lemma trail_by_thread t (evs : list (@event T)) h :
  trail t (by_thread t evs ++ h) = evs ++ trail t h.
Proof.
  induction evs as [|e evs IH]; [done|].
  simpl. rewrite decide_True by done. by rewrite IH.
Qed.

Lemma trail_by_other t t' (evs : list (@event T)) h :
  t' ≠ t -> trail t (by_thread t' evs ++ h) = trail t h.
Proof.
  intros Hne. induction evs as [|e evs IH]; [done|].
  simpl. rewrite decide_False by congruence. done.
Qed.

Lemma trail_In t (e : @event T) h : In (Some t, e) h <-> In e (trail t h).
Proof.
  induction h as [|[who e'] h IH]; [done|].
  simpl. destruct (decide (who = Some t)) as [->|Hne]; simpl; rewrite <- IH.
  - split; intros [H|H]; auto; left; congruence.
  - split; [intros [H|H]; [congruence|done] | auto].
Qed.

(** No thread has left an event before it was started. *)
Lemma trail_unborn sched t :
  length (threads (exec rt sched initial)) <= t ->
  trail t (hist (exec rt sched initial)) = [].
Proof.
  revert t. induction sched as [|a sched IH] using rev_ind; intros t; [done|].
  rewrite exec_snoc. set (σ := exec rt sched initial) in *.
  destruct a as [t'| | |]; simpl.
  - destruct (threads σ !! t') as [[th p]|] eqn:Hl; [|by apply IH].
    destruct (thread_step rt t' (exited_in σ) th p (mem σ)) as [[[p' m'] evs]|];
      [|by apply IH].
    simpl. rewrite length_insert. intros Hlen.
    apply lookup_lt_Some in Hl.
    rewrite trail_by_other by lia. by apply IH.
  - rewrite length_app. simpl. intros Hlen. apply IH. lia.
  - by apply IH.
  - by apply IH.
Qed.

(** A property of a thread and its own events that the start establishes
    and every step of the thread keeps holds in every state. *)
Lemma thread_invariant (P : tid -> @closure T -> @pc T -> list (@event T) -> Prop) :
  (forall t th, P t th AcquireLock []) ->
  (forall t ex th p m p' m' evs tr,
      P t th p tr -> thread_step rt t ex th p m = Some (p', m', evs) ->
      P t th p' (evs ++ tr)) ->
  forall sched t th p,
    threads (exec rt sched initial) !! t = Some (th, p) ->
    P t th p (trail t (hist (exec rt sched initial))).
Proof.
  intros Hinit Hstep sched.
  induction sched as [|a sched IH] using rev_ind; intros t th p; [done|].
  rewrite exec_snoc. set (σ := exec rt sched initial) in *.
  destruct a as [t'|c i cb|c|r]; simpl.
  - destruct (threads σ !! t') as [[th' p']|] eqn:Hl; [|by apply IH].
    destruct (thread_step rt t' (exited_in σ) th' p' (mem σ))
      as [[[p'' m'] evs]|] eqn:Hs; [|by apply IH].
    simpl. destruct (decide (t' = t)) as [->|Hne].
    + rewrite list_lookup_insert_eq by (by eapply lookup_lt_Some).
      intros [= <- <-]. rewrite trail_by_thread. eapply Hstep; [|done]. by apply IH.
    + rewrite list_lookup_insert_ne by done. rewrite trail_by_other by done.
      by apply IH.
  - intros Hl. destruct (decide (t < length (threads σ))) as [Hlt|Hge].
    + rewrite lookup_app_l in Hl by done. by apply IH.
    + rewrite lookup_app_r in Hl by lia.
      destruct (t - length (threads σ)) eqn:Hd; [|by destruct n].
      simpl in Hl. injection Hl as <- <-.
      subst σ.
      rewrite (trail_unborn sched t) by lia. apply Hinit.
  - by apply IH.
  - by apply IH.
Qed.


(** ** Case analysis on one step of [runner] *)

Ltac step_cases H :=
  unfold thread_step, on_event in H;
  repeat case_match; simplify_eq; simpl in *.

(** ** The comparisons that stand before the guarded writes *)



(** ** The cleanup of lines 154-159 *)

Lemma cleanup_phase_step t ex th p m p' m' evs tr :
  cancelled_in_cleanup tr /\ cleanup_phase p tr ->
  thread_step rt t ex th p m = Some (p', m', evs) ->
  cancelled_in_cleanup (evs ++ tr) /\ cleanup_phase p' (evs ++ tr).
Proof.
  intros [Hc Hp] Hs. step_cases Hs;
    repeat match goal with
           | H : _ /\ _ |- _ => destruct H
           | H : exists _, _ |- _ => destruct H
           end; simplify_eq; simpl in *;
    repeat match goal with
           | H : started _ = _ |- _ => rewrite H
           | H : finally_checks _ = _ |- _ => rewrite H
           end;
    unfold wrote_work_state in *; simpl; try done;
    repeat match goal with
           | |- _ /\ _ => split
           | |- exists _, _ => eexists
           end; try done; auto.
Qed.

Lemma cleanup_phase_always sched t th p :
  threads (exec rt sched initial) !! t = Some (th, p) ->
  cancelled_in_cleanup (trail t (hist (exec rt sched initial)))
  /\ cleanup_phase p (trail t (hist (exec rt sched initial))).
Proof.
  intros Hl.
  eapply (thread_invariant
            (fun _ _ p tr => cancelled_in_cleanup tr /\ cleanup_phase p tr))
    in Hl; [done|done|].
  intros. by eapply cleanup_phase_step.
Qed.

(** ** Progress *)

Lemma gen_rest_ge (g : @generator T) : 12 <= gen_rest rt g.
Proof. destruct g; simpl; lia. Qed.

Lemma step_decreases t ex th p m p' m' evs :
  thread_step rt t ex th p m = Some (p', m', evs) ->
  remaining rt th p' < remaining rt th p.
Proof.
  intros Hs. unfold remaining. step_cases Hs; try lia.
  all: match goal with g : generator |- _ => pose proof (gen_rest_ge g) end; lia.
Qed.

Lemma step_enabled t ex th p m :
  past_join p = true -> thread_step rt t ex th p m = None -> is_exited p = true.
Proof.
  intros Hp Hs. unfold thread_step, on_event in Hs.
  repeat case_match; simplify_eq; done.
Qed.

Lemma past_join_step t ex th p m p' m' evs :
  past_join p = true -> thread_step rt t ex th p m = Some (p', m', evs) ->
  past_join p' = true.
Proof. intros Hp Hs. step_cases Hs; done. Qed.

Lemma remaining_0 th p : remaining rt th p = 0 -> is_exited p = true.
Proof.
  unfold remaining. destruct p; simpl; try done; try lia.
  pose proof (gen_rest_ge g). lia.
Qed.

(** An action that is no step of thread [t] leaves it where it is. *)
Lemma act_thread_other a σ t th p :
  is_step_of t a = false -> threads σ !! t = Some (th, p) ->
  threads (act rt a σ) !! t = Some (th, p).
Proof.
  intros Ha Hl. destruct a as [t'|c i cb|c|r]; simpl in *; eauto.
  - apply bool_decide_eq_false in Ha.
    destruct (threads σ !! t') as [[th' q]|]; eauto.
    destruct (thread_step rt t' (exited_in σ) th' q (mem σ))
      as [[[q' m'] evs]|]; simpl; eauto.
    by rewrite list_lookup_insert_ne.
  - by rewrite lookup_app_l by (by eapply lookup_lt_Some).
Qed.

(** A thread that has passed the join is exited after [remaining] of its own
    steps, whatever else happens in between. *)
Lemma runner_exits t th sched : forall σ p,
  threads σ !! t = Some (th, p) -> past_join p = true ->
  remaining rt th p <= step_count t sched ->
  exited_in (exec rt sched σ) t = true.
Proof.
  unfold step_count.
  induction sched as [|a sched IH]; intros σ p Hl Hp Hn.
  - unfold exited_in. simpl. rewrite Hl. apply (remaining_0 th). simpl in Hn. lia.
  - change (exec rt (a :: sched) σ) with (exec rt sched (act rt a σ)).
    destruct (is_step_of t a) eqn:Ha.
    + rewrite filter_cons_True in Hn by done. simpl in Hn.
      destruct a as [t'| | |]; try done. simpl in Ha.
      apply bool_decide_eq_true in Ha as ->.
      simpl. rewrite Hl.
      destruct (thread_step rt t (exited_in σ) th p (mem σ))
        as [[[q m'] evs]|] eqn:Hs.
      * apply (IH _ q).
        -- simpl. apply list_lookup_insert_eq. by eapply lookup_lt_Some.
        -- by eapply past_join_step.
        -- apply step_decreases in Hs. lia.
      * apply (IH _ p); [done|done|].
        apply step_enabled in Hs; [|done].
        destruct p; try done. simpl. lia.
    + rewrite filter_cons_False in Hn by (by rewrite Ha).
      apply (IH _ p); [by apply act_thread_other|done|done].
Qed.

(** ** The cells and the events *)

(** A step writes a cell only through an event. *)
Lemma step_frame t ex th p m p' m' evs :
  thread_step rt t ex th p m = Some (p', m', evs) ->
  (error m' = error m \/ exists e, evs = [SetError e] /\ error m' = e) /\
  (result m' = result m \/ exists v, evs = [SetResult v] /\ result m' = Some v) /\
  (result_state m' = result_state m
   \/ exists s, evs = [SetState s] /\ result_state m' = s).
Proof. intros Hs. step_cases Hs; eauto 8. Qed.

Lemma error_recorded sched e :
  error (mem (exec rt sched initial)) = Some e ->
  exists t, In (Some t, SetError (Some e)) (hist (exec rt sched initial)).
Proof.
  induction sched as [|a sched IH] using rev_ind; [done|].
  rewrite exec_snoc. set (σ := exec rt sched initial) in *.
  destruct a as [t| | |]; simpl; try (intros H; destruct (IH H); eauto; fail).
  destruct (threads σ !! t) as [[th p]|]; [|done].
  destruct (thread_step rt t (exited_in σ) th p (mem σ))
    as [[[p' m'] evs]|] eqn:Hs; [|done].
  simpl. intros He. destruct (step_frame _ _ _ _ _ _ _ _ Hs) as ([Hu|(x & -> & Hx)] & _).
  - rewrite Hu in He. destruct (IH He) as [t' Hin]. exists t'.
    apply in_or_app. by right.
  - exists t. rewrite Hx in He. subst x. by left.
Qed.

(** ** The abort signal at the handlers of lines 144-151 *)

Lemma handled_step t ex th p m p' m' evs tr :
  handled p tr -> thread_step rt t ex th p m = Some (p', m', evs) ->
  handled p' (evs ++ tr).
Proof.
  unfold handled, aborted.
  intros (Ho & He & Hw & Hp) Hs. step_cases Hs;
    repeat (repeat match goal with
                   | H : _ /\ _ |- _ => destruct H
                   | H : exists _, _ |- _ => destruct H
                   | H : Forall _ (_ :: _) |- _ => apply Forall_cons in H
                   end; simplify_eq; simpl in * );
    repeat match goal with
           | |- _ /\ _ => split
           | |- Forall _ (_ :: _) => constructor
           | |- _ -> _ => intros ?
           end; simpl; eauto; try done; try congruence.
  destruct (aborted tr); [|done].
  specialize (Hp eq_refl). by subst.
Qed.

Lemma handled_always sched t th p :
  threads (exec rt sched initial) !! t = Some (th, p) ->
  handled p (trail t (hist (exec rt sched initial))).
Proof.
  intros Hl.
  eapply (thread_invariant (fun _ _ p tr => handled p tr)) in Hl; [done| |].
  - intros. unfold handled. simpl. auto.
  - intros. by eapply handled_step.
Qed.

Lemma trail_of_thread sched t e :
  In (Some t, e) (hist (exec rt sched initial)) ->
  exists th p, threads (exec rt sched initial) !! t = Some (th, p).
Proof.
  intros Hin. destruct (threads (exec rt sched initial) !! t) as [[th p]|] eqn:Hl;
    [eauto|].
  apply trail_In in Hin. rewrite trail_unborn in Hin; [done|].
  by apply lookup_ge_None.
Qed.

Lemma renderer_events sched e :
  In (None, e) (hist (exec rt sched initial)) ->
  e = SetState STARTING \/ (exists msg, e = LogInfo msg) \/ exists c, e = CancelSet c.
Proof.
  induction sched as [|a sched IH] using rev_ind; [done|].
  rewrite exec_snoc. set (σ := exec rt sched initial) in *.
  destruct a as [t| | |]; simpl; try done.
  - destruct (threads σ !! t) as [[th p]|]; [|done].
    destruct (thread_step rt t (exited_in σ) th p (mem σ))
      as [[[p' m'] evs]|] eqn:Hs; [|done].
    simpl. intros [Hin|Hin]%in_app_or; [|by apply IH].
    unfold by_thread in Hin. apply in_map_iff in Hin as (x & Hx & _). done.
  - intros [H|[H|H]]; simplify_eq; eauto.
  - intros [H|H]; simplify_eq; eauto.
Qed.

Lemma hist_ordinary sched who e :
  In (who, e) (hist (exec rt sched initial)) -> ordinary e.
Proof.
  destruct who as [t|].
  - intros Hin. destruct (trail_of_thread _ _ _ Hin) as (th & p & Hl).
    apply handled_always in Hl as (Ho & _).
    apply trail_In in Hin. rewrite Forall_forall in Ho.
    apply Ho. by apply list_elem_of_In.
  - intros [->|[[msg ->]|[c ->]]]%renderer_events; done.
Qed.

(** ** The thread that was superseded while it waited *)

Lemma waiting_step t ex th p m p' m' evs tr :
  waiting t p tr -> thread_step rt t ex th p m = Some (p', m', evs) ->
  waiting t p' (evs ++ tr).
Proof.
  intros Hp Hs. step_cases Hs; subst; simpl; try done; try congruence.
Qed.

Lemma waiting_always sched t th p :
  threads (exec rt sched initial) !! t = Some (th, p) ->
  waiting t p (trail t (hist (exec rt sched initial))).
Proof.
  intros Hl.
  eapply (thread_invariant (fun t _ p tr => waiting t p tr)) in Hl; [done|done|].
  intros. by eapply waiting_step.
Qed.

(** ** A thread running undisturbed *)

Lemma runs_trans me th n p m evs p1 m1 n' evs' p' m' :
  runs rt me th n p m evs p1 m1 -> runs rt me th n' p1 m1 evs' p' m' ->
  runs rt me th (n + n') p m (evs ++ evs') p' m'.
Proof.
  induction 1 as [|n p m p1 m1 evs p2 m2 evs2 Hs _ IH]; intros Hr; [done|].
  rewrite <- app_assoc. simpl. econstructor; [done|]. by apply IH.
Qed.

Lemma performs_nothing me th p m : performs rt me th p m [] p.
Proof. exists 0. constructor. Qed.

Lemma performs_step me th p m p1 m1 evs evs' p' :
  thread_step rt me (fun _ => false) th p m = Some (p1, m1, evs) ->
  m1 = apply_events (rev evs) m ->
  performs rt me th p1 m1 evs' p' ->
  performs rt me th p m (rev evs ++ evs') p'.
Proof.
  intros Hs -> [n Hr]. exists (S n). unfold apply_events.
  rewrite fold_left_app. by econstructor.
Qed.

Lemma performs_trans me th p m evs p1 evs' p' :
  performs rt me th p m evs p1 ->
  performs rt me th p1 (apply_events evs m) evs' p' ->
  performs rt me th p m (evs ++ evs') p'.
Proof.
  intros [n Hr] [n' Hr']. exists (n + n'). unfold apply_events.
  rewrite fold_left_app. by eapply runs_trans.
Qed.

Lemma is_current_apply_events me (evs : list (@event T)) m :
  Forall (fun e => match e with SetPointer _ => False | _ => True end) evs ->
  is_current me (apply_events evs m) = is_current me m.
Proof.
  intros H. revert m. induction H as [|e evs He _ IH]; intros m; [done|].
  simpl. rewrite IH. by destruct e.
Qed.

Lemma is_set_apply_events c (evs : list (@event T)) m :
  Forall (fun e => match e with CancelSet _ => False | _ => True end) evs ->
  is_set c (apply_events evs m) = is_set c m.
Proof.
  intros H. revert m. induction H as [|e evs He _ IH]; intros m; [done|].
  simpl. rewrite IH. by destruct e.
Qed.

(** Trace events that do not abort pass silently. *)
Lemma performs_in_call me th k m :
  aborts rt th m = false -> performs rt me th (InCall k) m [] (InCall 0).
Proof.
  intros Ha. induction k as [|k IH]; [apply performs_nothing|].
  eapply (performs_step _ _ _ _ _ _ [] []); [|done|done].
  simpl. unfold on_event. by rewrite Ha.
Qed.

Lemma performs_leave_call me th j c m :
  aborts rt th m = false -> performs rt me th (LeaveCall j c) m [] (LeaveCall 0 c).
Proof.
  intros Ha. induction j as [|j IH]; [apply performs_nothing|].
  eapply (performs_step _ _ _ _ _ _ [] []); [|done|done].
  simpl. unfold on_event. by rewrite Ha.
Qed.

Lemma performs_in_next me th k g m :
  aborts rt th m = false -> performs rt me th (InNext k g) m [] (InNext 0 g).
Proof.
  intros Ha. induction k as [|k IH]; [apply performs_nothing|].
  eapply (performs_step _ _ _ _ _ _ [] []); [|done|done].
  simpl. unfold on_event. by rewrite Ha.
Qed.

Lemma performs_leave_next me th j r m :
  aborts rt th m = false -> performs rt me th (LeaveNext j r) m [] (LeaveNext 0 r).
Proof.
  intros Ha. induction j as [|j IH]; [apply performs_nothing|].
  eapply (performs_step _ _ _ _ _ _ [] []); [|done|done].
  simpl. unfold on_event. by rewrite Ha.
Qed.

(** The cleanup of lines 154-159. *)
Lemma performs_finally me th q m :
  performs rt me th (FinallyCheck q) m
    (finally_events (is_current me m) (is_set (th_cancel th) m)) (Exited q).
Proof.
  destruct (is_current me m) eqn:Ha.
  - destruct (is_set (th_cancel th) m) eqn:Hc.
    + eapply (performs_step _ _ _ _ _ _ [_]); [simpl; rewrite Ha; done|done|].
      eapply (performs_step _ _ _ _ _ _ [_]); [done|done|].
      eapply (performs_step _ _ _ _ _ _ [_]); [done|done|].
      eapply (performs_step _ _ _ _ _ _ [] [_]);
        [simpl; change (is_set (th_cancel th) _) with (is_set (th_cancel th) m);
         rewrite Hc; done|done|].
      eapply (performs_step _ _ _ _ _ _ [_] []); [done|done|].
      apply performs_nothing.
    + eapply (performs_step _ _ _ _ _ _ [_]); [simpl; rewrite Ha; done|done|].
      eapply (performs_step _ _ _ _ _ _ [_]); [done|done|].
      eapply (performs_step _ _ _ _ _ _ [_]); [done|done|].
      eapply (performs_step _ _ _ _ _ _ [] []);
        [simpl; change (is_set (th_cancel th) _) with (is_set (th_cancel th) m);
         rewrite Hc; done|done|].
      apply performs_nothing.
  - eapply (performs_step _ _ _ _ _ _ [_] []); [simpl; rewrite Ha; done|done|].
    apply performs_nothing.
Qed.

Lemma performs_eq me th p m (evs evs' : list (@event T)) p' :
  performs rt me th p m evs p' -> evs = evs' -> performs rt me th p m evs' p'.
Proof. by intros H <-. Qed.

Lemma keeps_is_current me (evs : list (@event T)) m :
  Forall keeps_pointer_and_flag evs ->
  is_current me (apply_events evs m) = is_current me m.
Proof.
  intros H. apply is_current_apply_events.
  eapply Forall_impl; [done|]. by intros [].
Qed.

Lemma keeps_is_set c (evs : list (@event T)) m :
  Forall keeps_pointer_and_flag evs ->
  is_set c (apply_events evs m) = is_set c m.
Proof.
  intros H. apply is_set_apply_events.
  eapply Forall_impl; [done|]. by intros [].
Qed.

Lemma performs_then_finally me th p m evs q :
  performs rt me th p m evs (FinallyCheck q) ->
  Forall keeps_pointer_and_flag evs ->
  performs rt me th p m
    (evs ++ finally_events (is_current me m) (is_set (th_cancel th) m)) (Exited q).
Proof.
  intros Hp Hk. eapply performs_trans; [done|].
  rewrite <- (keeps_is_current me evs m), <- (keeps_is_set (th_cancel th) evs m) by done.
  apply performs_finally.
Qed.

Ltac step :=
  eapply performs_step;
  [ simpl; repeat match goal with H : _ = _ |- _ => rewrite H end; reflexivity
  | reflexivity
  | simpl ].

(** The handlers of lines 144-151. *)
Lemma performs_handle me th e m :
  performs rt me th (Handle e) m (handler_events (is_current me m) e)
    (FinallyCheck (escapes_handlers e)).
Proof.
  unfold handler_events, escapes_handlers.
  destruct (isinstance_Exception e) eqn:He.
  - destruct (is_current me m) eqn:Ha.
    + eapply performs_eq; [|reflexivity].
      eapply (performs_step _ _ _ _ _ _ [] _); [simpl; rewrite He; done|done|].
      eapply (performs_step _ _ _ _ _ _ [_] _); [done|done|].
      eapply (performs_step _ _ _ _ _ _ [_] _);
        [simpl; change (is_current me _) with (is_current me m); rewrite Ha; done|done|].
      eapply (performs_step _ _ _ _ _ _ [_] _); [done|done|].
      eapply (performs_step _ _ _ _ _ _ [_] []); [done|done|].
      apply performs_nothing.
    + eapply (performs_step _ _ _ _ _ _ [] _); [simpl; rewrite He; done|done|].
      eapply (performs_step _ _ _ _ _ _ [_] _); [done|done|].
      eapply (performs_step _ _ _ _ _ _ [_] []);
        [simpl; change (is_current me _) with (is_current me m); rewrite Ha; done|done|].
      apply performs_nothing.
  - destruct (isinstance_CancelledError e) eqn:Hc.
    + eapply (performs_step _ _ _ _ _ _ [] []); [simpl; rewrite He, Hc; done|done|].
      apply performs_nothing.
    + eapply (performs_step _ _ _ _ _ _ [] []); [simpl; rewrite He, Hc; done|done|].
      apply performs_nothing.
Qed.

Lemma handler_events_keep auth e :
  Forall keeps_pointer_and_flag (@handler_events T auth e).
Proof.
  unfold handler_events.
  destruct (isinstance_Exception e), auth; repeat constructor.
Qed.

Lemma loop_events_keep auth g :
  Forall keeps_pointer_and_flag (@loop_events T auth g).
Proof.
  induction g as [k|k v rest IH|k e]; simpl.
  - destruct auth; repeat constructor.
  - repeat constructor. done.
  - apply handler_events_keep.
Qed.

Lemma body_events_keep auth c :
  Forall keeps_pointer_and_flag (@body_events T auth c).
Proof.
  destruct c as [[v|g]|e]; simpl.
  - destruct auth; repeat constructor.
  - apply loop_events_keep.
  - apply handler_events_keep.
Qed.

(** The loop of lines 128-138. *)
Lemma performs_loop me th g : forall m,
  aborts rt th m = false ->
  performs rt me th (InNext (pull_events g) g) m (loop_events (is_current me m) g)
    (FinallyCheck (loop_escapes g)).
Proof.
  induction g as [k|k v rest IH|k e]; intros m Hab; simpl.
  - destruct (is_current me m) eqn:Ha.
    + eapply performs_eq.
      {
        eapply performs_trans; [by apply performs_in_next|]. simpl.
        step.
        eapply performs_trans; [by apply performs_leave_next|]. simpl.
        step. step. step. apply performs_nothing. }
      done.
    + eapply performs_eq.
      {
        eapply performs_trans; [by apply performs_in_next|]. simpl.
        step.
        eapply performs_trans; [by apply performs_leave_next|]. simpl.
        step. step. apply performs_nothing. }
      done.
  - eapply performs_eq.
    { eapply performs_trans; [by apply performs_in_next|]. simpl.
      step. step. step.
      eapply performs_trans; [by apply performs_leave_next|]. simpl.
      step. step. apply IH. done. }
    done.
  - eapply performs_eq.
    { eapply performs_trans; [by apply performs_in_next|]. simpl.
      step.
      eapply performs_trans; [by apply performs_leave_next|]. simpl.
      step. apply performs_handle. }
    done.
Qed.

(** Lines 112-153: the state RUNNING, the call and what follows it. *)
Lemma performs_body me th m :
  aborts rt th m = false ->
  performs rt me th SetRunning m
    (SetState RUNNING :: body_events (is_current me m) (outcome (th_callback th)))
    (FinallyCheck (escapes (outcome (th_callback th)))).
Proof.
  intros Hab.
  assert (performs rt me th SetRunning m [SetState RUNNING]
            (LeaveCall 0 (outcome (th_callback th)))) as Hcall.
  { eapply performs_eq.
    { step. eapply performs_trans; [by apply performs_in_call|]. simpl.
      step. eapply performs_trans; [by apply performs_leave_call|]. simpl.
      apply performs_nothing. }
    done. }
  apply (performs_trans _ _ _ _ [_] _ _ _ Hcall). simpl.
  set (m1 := set_result_state RUNNING m).
  assert (aborts rt th m1 = false) as Hab1 by done.
  change (is_current me m) with (is_current me m1).
  clearbody m1. clear Hcall.
  destruct (outcome (th_callback th)) as [[v|g]|e]; simpl.
  - destruct (is_current me m1) eqn:Ha.
    + eapply performs_eq.
      {
        step. step. step.
        eapply (performs_step _ _ _ _ _ _ [_] _);
          [simpl; change (is_current me _) with (is_current me m1); rewrite Ha; done|done|].
        step. apply performs_nothing. }
      done.
    + eapply performs_eq.
      {
        step. step. step.
        eapply (performs_step _ _ _ _ _ _ [_] []);
          [simpl; change (is_current me _) with (is_current me m1); rewrite Ha; done|done|].
        apply performs_nothing. }
      done.
  - eapply performs_eq.
    { step. by apply (performs_loop me th g). }
    done.
  - eapply performs_eq.
    { step. apply performs_handle. }
    done.
Qed.

(** The whole of [runner] from line 112 on. *)
Lemma performs_runner me th m :
  aborts rt th m = false ->
  performs rt me th SetRunning m
    (runner_events (is_current me m) (is_set (th_cancel th) m)
       (outcome (th_callback th)))
    (Exited (escapes (outcome (th_callback th)))).
Proof.
  intros Hab. unfold runner_events.
  apply (performs_then_finally me th SetRunning m (_ :: _)).
  - by apply performs_body.
  - constructor; [done|]. apply body_events_keep.
Qed.

(** ** From the run of one thread to the schedule of the process *)

Lemma runs_bound me th n p m evs p' m' :
  runs rt me th n p m evs p' m' ->
  n + remaining rt th p' <= remaining rt th p.
Proof.
  induction 1 as [|n p m p1 m1 evs p2 m2 evs2 Hs _ IH]; [lia|].
  apply step_decreases in Hs. lia.
Qed.

(** Only the join looks at the other threads. *)
Lemma thread_step_joined me ex th p m x :
  thread_step rt me (fun _ => false) th p m = Some x ->
  thread_step rt me ex th p m = Some x.
Proof. destruct p; simpl; try done. Qed.

Lemma exec_stutter t σ k :
  exited_in σ t = true -> exec rt (repeat (Step t) k) σ = σ.
Proof.
  unfold exited_in. intros He. induction k as [|k IH]; [done|].
  simpl. destruct (threads σ !! t) as [[th p]|]; [|done].
  destruct p; try done.
Qed.

Lemma runs_exec me th n p m evs p' m' :
  runs rt me th n p m evs p' m' ->
  forall σ, threads σ !! me = Some (th, p) -> mem σ = m ->
  exec rt (repeat (Step me) n) σ =
    {| mem := m'; threads := <[me := (th, p')]> (threads σ);
       hist := by_thread me (rev evs) ++ hist σ |}.
Proof.
  induction 1 as [p m|n p m p1 m1 evs p2 m2 evs2 Hs _ IH]; intros σ Hl Hm.
  - simpl. rewrite list_insert_id by done. subst m. by destruct σ.
  - change (exec rt (repeat (Step me) (S n)) σ)
      with (exec rt (repeat (Step me) n) (act rt (Step me) σ)).
    simpl. rewrite Hl, Hm.
    rewrite (thread_step_joined _ _ _ _ _ _ Hs).
    rewrite IH; simpl.
    + rewrite list_insert_insert_eq. f_equal.
      rewrite rev_app_distr, rev_involutive. unfold by_thread.
      by rewrite map_app, <- app_assoc.
    + apply list_lookup_insert_eq. by eapply lookup_lt_Some.
    + done.
Qed.

(** A thread at line 112 that the hook does not abort, run alone with
    enough steps, does what [runner_events] says and leaves [runner]. *)
Lemma runner_alone σ t th n :
  threads σ !! t = Some (th, SetRunning) ->
  aborts rt th (mem σ) = false ->
  remaining rt th SetRunning <= n ->
  let evs := runner_events (is_current t (mem σ)) (is_set (th_cancel th) (mem σ))
               (outcome (th_callback th)) in
  exec rt (repeat (Step t) n) σ =
    {| mem := apply_events evs (mem σ);
       threads := <[t := (th, Exited (escapes (outcome (th_callback th))))]> (threads σ);
       hist := by_thread t (rev evs) ++ hist σ |}.
Proof.
  intros Hl Hab Hn evs.
  destruct (performs_runner t th (mem σ) Hab) as [k Hr]. fold evs in Hr.
  pose proof (runs_bound _ _ _ _ _ _ _ _ Hr) as Hk.
  replace n with (k + (n - k)) by lia.
  rewrite repeat_app, exec_app.
  rewrite (runs_exec _ _ _ _ _ _ _ _ Hr σ Hl eq_refl).
  apply exec_stutter. unfold exited_in. simpl.
  rewrite list_lookup_insert_eq by (by eapply lookup_lt_Some). done.
Qed.

Lemma step_keeps_events t ex th p m p' m' evs :
  thread_step rt t ex th p m = Some (p', m', evs) -> cancel m' = cancel m.
Proof. intros Hs. step_cases Hs; done. Qed.

Lemma act_keeps_set a σ c :
  is_set c (mem σ) = true -> is_set c (mem (act rt a σ)) = true.
Proof.
  unfold is_set. intros Hc. destruct a as [t|c' i cb|c'|r]; simpl; try done.
  - destruct (threads σ !! t) as [[th p]|]; [|done].
    destruct (thread_step rt t (exited_in σ) th p (mem σ))
      as [[[p' m'] evs]|] eqn:Hs; [|done].
    simpl. by rewrite (step_keeps_events _ _ _ _ _ _ _ _ Hs).
  - apply bool_decide_eq_true. apply bool_decide_eq_true in Hc.
    apply elem_of_union. by right.
Qed.

Lemma exec_keeps_set sched : forall σ c,
  is_set c (mem σ) = true -> is_set c (mem (exec rt sched σ)) = true.
Proof.
  induction sched as [|a sched IH]; intros σ c Hc; [done|].
  apply IH. by apply act_keeps_set.
Qed.

(** ** The read of the Event at line 158 *)

(** A thread comes to stand before line 159 by one step only: the one of
    line 158 that finds the Event set. *)
Lemma flag_read_step t ex th p m p' m' evs tr :
  thread_step rt t ex th p m = Some (p', m', evs) ->
  about_to_cancel p' = true \/ In (SetState CANCELLED) (evs ++ tr) ->
  (about_to_cancel p = true \/ In (SetState CANCELLED) tr)
  \/ (exists q, p = FinallyFlag q /\ is_set (th_cancel th) m = true).
Proof.
  intros Hs H. step_cases Hs;
    try (destruct H as [H|H]; [done|]);
    try (destruct H as [H|H]; [done|]);
    try (destruct H as [H|H]; [done|]);
    eauto.
Qed.

Lemma read_flag_set_snoc sched a t th :
  read_flag_set rt sched t th -> read_flag_set rt (sched ++ [a]) t th.
Proof.
  intros (s1 & s2 & q & E & Hl & Hc). exists s1, (s2 ++ [a]), q.
  split; [|done]. rewrite E. by rewrite <- app_assoc.
Qed.

(** In every interleaving, a thread that stands before line 159 or has
    written CANCELLED has read its Event at line 158 and found it set. *)
Lemma cancelled_after_flag_read sched : forall t th p,
  threads (exec rt sched initial) !! t = Some (th, p) ->
  about_to_cancel p = true
  \/ In (SetState CANCELLED) (trail t (hist (exec rt sched initial))) ->
  read_flag_set rt sched t th.
Proof.
  induction sched as [|a sched IH] using rev_ind; intros t th p; [done|].
  rewrite exec_snoc.
  pose proof (fun t th => read_flag_set_snoc sched a t th) as Hext.
  set (σ := exec rt sched initial) in *.
  destruct a as [t'|c i cb|c|r]; simpl.
  - destruct (threads σ !! t') as [[th' p']|] eqn:Hl;
      [|intros Hl' H; apply Hext; by eapply IH].
    destruct (thread_step rt t' (exited_in σ) th' p' (mem σ))
      as [[[p'' m'] evs]|] eqn:Hs; [|intros Hl' H; apply Hext; by eapply IH].
    simpl. destruct (decide (t' = t)) as [->|Hne].
    + rewrite list_lookup_insert_eq by (by eapply lookup_lt_Some).
      intros [= <- <-]. rewrite trail_by_thread. intros H.
      destruct (flag_read_step _ _ _ _ _ _ _ _ _ Hs H) as [H0|(q & -> & Hc)].
      * apply Hext. by eapply IH.
      * exists sched, [], q. by repeat split.
    + rewrite list_lookup_insert_ne by done. rewrite trail_by_other by done.
      intros Hl' H. apply Hext. by eapply IH.
  - intros Hl H. destruct (decide (t < length (threads σ))) as [Hlt|Hge].
    + rewrite lookup_app_l in Hl by done. apply Hext. by eapply IH.
    + rewrite lookup_app_r in Hl by lia.
      destruct (t - length (threads σ)) eqn:Hd; [|by destruct n].
      simpl in Hl. injection Hl as <- <-.
      subst σ. rewrite (trail_unborn sched t) in H by lia.
      by destruct H.
  - intros Hl H. apply Hext. by eapply IH.
  - intros Hl H. apply Hext. by eapply IH.
Qed.

(** C2 (amended): CANCELLED is written by the last statement of the cleanup
    of lines 154-159 and nowhere else: directly after the thread found
    itself current at line 155, cleared the pointer and logged, and only by
    a thread that, at an earlier point of the schedule, stood at line 158
    while its own Event was set and took its step there; the Event is then
    still set.  The state the thread itself wrote before is RUNNING,
    FINISHED or ERROR (the cleanup does move the state from FINISHED or
    ERROR to CANCELLED).  The comparison of line 155 that opens the cleanup
    is evaluated at most once by a thread, and exactly once by a thread
    that has set RUNNING (line 112) and left [runner]; lines 114-118 are
    taken to return, so that a thread that has set RUNNING enters the try
    block.  A thread that has set RUNNING has passed the join, and from
    there it leaves [runner] within [remaining] of its own steps in every
    interleaving, whether the work returned, raised, or was aborted; the
    work of a callback is a finite script of trace events, that is, the
    user work is taken to come to an end. *)
Theorem cancelled_only_in_cleanup sched t th p :
  threads (exec rt sched initial) !! t = Some (th, p) ->
  let σ := exec rt sched initial in
  let tr := trail t (hist σ) in
  cancelled_in_cleanup tr
  /\ (about_to_cancel p = true \/ In (SetState CANCELLED) tr ->
      read_flag_set rt sched t th /\ is_set (th_cancel th) (mem σ) = true)
  /\ finally_checks tr <= 1
  /\ (is_exited p = true -> finally_checks tr = if started tr then 1 else 0)
  /\ (started tr = true -> past_join p = true)
  /\ (past_join p = true -> forall sched',
        remaining rt th p <= step_count t sched' ->
        exited_in (exec rt sched' σ) t = true).
Proof.
  intros Hl σ tr. destruct (cleanup_phase_always sched t th p Hl) as [Hc Hp].
  fold σ in Hc, Hp. fold tr in Hc, Hp. split; [done|]. split.
  { intros H. pose proof (cancelled_after_flag_read sched t th p Hl H) as Hr.
    split; [done|]. destruct Hr as (s1 & s2 & q & E & _ & Hs).
    subst σ. rewrite E, exec_app. by apply exec_keeps_set. }
  repeat split.
  - destruct p; simpl in Hp; try lia. destruct (started tr); lia.
  - by destruct p.
  - intros Hs. destruct p; simpl in Hp; try done;
      destruct Hp as [Hp _]; congruence.
  - intros Hp' sched' Hn. by eapply runner_exits.
Qed.

(** C4: CancelledError is no instance of Exception, so the handler of line
    144 does not take it; the handler of line 150 takes it and does nothing,
    and the thread goes on to the cleanup with nothing in flight.  In every
    interleaving [error.current] holds no CancelledError, none is logged,
    every write of ERROR follows the storing and logging of an instance of
    Exception, and whatever a thread does after the hook raised in it
    belongs to the cleanup. *)
Theorem cancelled_error_is_swallowed sched :
  let σ := exec rt sched initial in
  isinstance_Exception CancelledError = false
  /\ (forall t ex th m,
        thread_step rt t ex th (Handle CancelledError) m
        = Some (FinallyCheck None, m, []))
  /\ (forall e, error (mem σ) = Some e -> isinstance_Exception e = true)
  /\ (forall who e, In (who, SetError (Some e)) (hist σ) ->
        isinstance_Exception e = true)
  /\ (forall who e, In (who, LogException e) (hist σ) ->
        isinstance_Exception e = true)
  /\ (forall t, error_from_exception (trail t (hist σ))
                /\ swallowed (trail t (hist σ))).
Proof.
  intros σ. split; [done|]. split; [done|]. repeat split.
  - intros e He. destruct (error_recorded sched e He) as [t Hin].
    by apply hist_ordinary in Hin.
  - intros who e Hin. by apply hist_ordinary in Hin.
  - intros who e Hin. by apply hist_ordinary in Hin.
  - subst σ. destruct (threads (exec rt sched initial) !! t) as [[th p]|] eqn:Hl.
    + by apply handled_always in Hl as (_ & He & _).
    + rewrite trail_unborn; [done|]. by apply lookup_ge_None.
  - subst σ. destruct (threads (exec rt sched initial) !! t) as [[th p]|] eqn:Hl.
    + by apply handled_always in Hl as (_ & _ & Hw & _).
    + rewrite trail_unborn; [done|]. by apply lookup_ge_None.
Qed.

(** C7: the hook raises CancelledError exactly when the Event is set and
    there is no render context or the render context is not rendering; it
    raises nothing else; with the Event set and a render pass active it
    keeps tracing.  Under an installed hook every trace event of the call,
    of a pull and of leaving the guarded block aborts the thread under this
    condition and lets it go on otherwise. *)
Theorem monitor_raises_iff prev cancel_is_set r :
  (tracefunc rt prev cancel_is_set r = Raised CancelledError <->
   cancel_is_set = true /\
   (r = None \/ exists c, r = Some c /\ is_rendering c = false))
  /\ (forall e, tracefunc rt prev cancel_is_set r = Raised e -> e = CancelledError)
  /\ (forall c, cancel_is_set = true -> r = Some c -> is_rendering c = true ->
        tracefunc rt prev cancel_is_set r
        = KeepTracing (prev && SOLARA_ALLOW_OTHER_TRACER rt))
  /\ (forall (th : @closure T) m,
        aborts rt th m =
        hook_installed rt th && is_set (th_cancel th) m
        && match rc m with None => true | Some c => negb (is_rendering c) end)
  /\ (forall t ex (th : @closure T) m,
        let go next :=
          Some (if aborts rt th m then (Handle CancelledError, m, [RaiseCancelled])
                else (next, m, [])) in
        (forall k, thread_step rt t ex th (InCall (S k)) m = go (InCall k))
        /\ (forall j c, thread_step rt t ex th (LeaveCall (S j) c) m = go (LeaveCall j c))
        /\ (forall k g, thread_step rt t ex th (InNext (S k) g) m = go (InNext k g))
        /\ (forall j x, thread_step rt t ex th (LeaveNext (S j) x) m = go (LeaveNext j x))).
Proof.
  split; [|split; [|split; [|split]]].
  - unfold tracefunc. split.
    + destruct cancel_is_set; [|done]. destruct r as [[[]]|]; simpl; try done.
      * intros _. split; [done|]. right. by eexists.
      * intros _. split; [done|]. by left.
    + intros (-> & [->|(c & -> & Hc)]); [done|]. by rewrite Hc.
  - unfold tracefunc. destruct cancel_is_set, r as [[[]]|]; simpl; congruence.
  - intros c -> -> Hc. unfold tracefunc. by rewrite Hc.
  - intros th m. unfold aborts, tracefunc.
    destruct (hook_installed rt th), (is_set (th_cancel th) m), (rc m) as [[[]]|]; done.
  - intros t ex th m go. by repeat split.
Qed.

(** C8: a thread that finds, after the join, that it is not
    [running_thread.current] leaves [runner] at once: the step of line 105
    changes no cell and is the thread's last step.  In every interleaving
    such a thread has written WAITING and nothing after it; it has not set
    RUNNING and has not touched [result] or [error]. *)
Theorem superseded_while_waiting_exits sched t th p :
  threads (exec rt sched initial) !! t = Some (th, p) ->
  In (IsCurrent line105 false) (trail t (hist (exec rt sched initial))) ->
  p = Exited None
  /\ trail t (hist (exec rt sched initial))
     = [IsCurrent line105 false; SetState WAITING; SetPointer (Some t)]
  /\ (forall ex m, is_current t m = false ->
        thread_step rt t ex th CheckAfterJoin m
        = Some (Exited None, m, [IsCurrent line105 false]))
  /\ (forall ex m, thread_step rt t ex th p m = None).
Proof.
  intros Hl Hin. pose proof (waiting_always sched t th p Hl) as Hw.
  assert (existsb is_lost_join (trail t (hist (exec rt sched initial))) = true) as Hx.
  { apply existsb_exists. by exists (IsCurrent line105 false). }
  destruct p; simpl in Hw; try (rewrite Hw in Hx; done); try congruence.
  destruct (Hw Hx) as [-> Htr]. repeat split; try done.
  intros ex m Hc. simpl. by rewrite Hc.
Qed.

(** C5: a thread at line 112 whose callback is a single-shot computation
    and which the hook does not abort, run alone: when the callback returns
    [v], [result.current] becomes [v] and [error.current] None; when it
    raises an instance [e] of Exception, [error.current] becomes [e] and
    [result.current] stays.  If the thread is then still
    [running_thread.current] it sets FINISHED, respectively logs [e] and
    sets ERROR, and otherwise writes no state; the cleanup follows. *)
Theorem single_shot_publication σ t th n :
  threads σ !! t = Some (th, SetRunning) ->
  aborts rt th (mem σ) = false ->
  remaining rt th SetRunning <= n ->
  let auth := is_current t (mem σ) in
  let flag := is_set (th_cancel th) (mem σ) in
  let σ' := exec rt (repeat (Step t) n) σ in
  (forall v, outcome (th_callback th) = Return (Plain v) ->
     result (mem σ') = Some v /\ error (mem σ') = None
     /\ result_state (mem σ')
        = (if auth then if flag then CANCELLED else FINISHED else RUNNING)
     /\ hist σ' =
        by_thread t
          (rev (SetState RUNNING :: SetResult v :: SetError None
                  :: IsCurrent line142 auth
                  :: (if auth then [SetState FINISHED] else [])
                  ++ finally_events auth flag)) ++ hist σ)
  /\ (forall e, outcome (th_callback th) = Raise e ->
        isinstance_Exception e = true ->
        result (mem σ') = result (mem σ) /\ error (mem σ') = Some e
        /\ result_state (mem σ')
           = (if auth then if flag then CANCELLED else ERROR else RUNNING)
        /\ hist σ' =
           by_thread t
             (rev (SetState RUNNING :: SetError (Some e)
                     :: IsCurrent line146 auth
                     :: (if auth then [LogException e; SetState ERROR] else [])
                     ++ finally_events auth flag)) ++ hist σ).
Proof.
  intros Hl Hab Hn auth flag σ'. subst σ'.
  rewrite (runner_alone σ t th n Hl Hab Hn). fold auth flag. simpl.
  split.
  - intros v ->. simpl. by destruct auth, flag.
  - intros e -> He. simpl. unfold handler_events. rewrite He.
    by destruct auth, flag.
Qed.

(** ** Generators that yield a list of values *)

Lemma loop_events_yields auth (vs : list (nat * T)) tail :
  loop_events auth (yields vs tail)
  = publish_all (map snd vs) ++ loop_events auth tail.
Proof.
  induction vs as [|[k v] vs IH]; [done|]. simpl. by rewrite IH.
Qed.

(** After the publication of a list of items the cell holds the last. *)
Lemma apply_publish_all (vs : list T) : forall m,
  apply_events (publish_all vs) m
  = match last vs with
    | Some v => set_error None (set_result (Some v) m)
    | None => m
    end.
Proof.
  induction vs as [|v vs IH]; intros m; [done|].
  change (apply_events (publish_all (v :: vs)) m)
    with (apply_events (publish_all vs) (set_error None (set_result (Some v) m))).
  rewrite IH. destruct vs as [|v' vs]; [done|].
  rewrite last_cons_cons. destruct (last (v' :: vs)) eqn:E; [done|].
  by apply last_None in E.
Qed.

Lemma apply_events_app (evs evs' : list (@event T)) m :
  apply_events (evs ++ evs') m = apply_events evs' (apply_events evs m).
Proof. unfold apply_events. by rewrite fold_left_app. Qed.

(** ** The order of publication *)

Lemma publications_cons (e : @event T) tr :
  publications (e :: tr) = publications tr ++ (if is_publication e then [e] else []).
Proof. done. Qed.

Lemma in_order_step t ex th p m p' m' evs tr :
  in_order th p tr -> thread_step rt t ex th p m = Some (p', m', evs) ->
  in_order th p' (evs ++ tr).
Proof.
  intros Hp Hs g Hg. destruct (Hp g Hg) as (Hc & rest & Hr & Hs').
  clear Hp.
  step_cases Hs; simplify_eq; simpl in *; try done;
    rewrite ?app_nil_r; (split; [done|]);
    try (eexists; split; [eassumption|done]);
    try (eexists; split; [rewrite Hr, <- app_assoc; reflexivity|done]).
  rewrite Hg in *. simplify_eq. eauto.
Qed.

Lemma in_order_always sched t th p :
  threads (exec rt sched initial) !! t = Some (th, p) ->
  in_order th p (trail t (hist (exec rt sched initial))).
Proof.
  intros Hl.
  eapply (thread_invariant (fun _ th p tr => in_order th p tr)) in Hl; [done| |].
  - intros ? ? g Hg. split; [done|]. exists (publish_all (items g)). done.
  - intros. by eapply in_order_step.
Qed.

(** C6: in every interleaving, what a thread with a generator callback has
    published (the writes of an item, of None into [error.current], and the
    calls of [updater]) is an initial part of: for each item in the order of
    production, the item into [result.current], None into [error.current],
    [updater()].  Run alone from line 112 and not aborted, a thread whose
    generator yields [vs] and is then exhausted publishes all of them in
    that way, then compares itself with [running_thread.current] and, when
    it is the current thread, sets FINISHED. *)
Theorem lazy_sequence_publication sched t th p g :
  threads (exec rt sched initial) !! t = Some (th, p) ->
  outcome (th_callback th) = Return (Lazy g) ->
  let σ := exec rt sched initial in
  publications (trail t (hist σ)) `prefix_of` publish_all (items g)
  /\ (forall vs k n,
        g = yields vs (GenStop k) ->
        p = SetRunning ->
        aborts rt th (mem σ) = false ->
        remaining rt th SetRunning <= n ->
        let auth := is_current t (mem σ) in
        let flag := is_set (th_cancel th) (mem σ) in
        let σ' := exec rt (repeat (Step t) n) σ in
        hist σ' =
          by_thread t
            (rev (SetState RUNNING :: publish_all (map snd vs)
                    ++ IsCurrent line137 auth
                    :: (if auth then [SetState FINISHED] else [])
                    ++ finally_events auth flag)) ++ hist σ
        /\ result (mem σ')
           = match last (map snd vs) with
             | Some v => Some v
             | None => result (mem σ)
             end
        /\ (vs <> [] -> error (mem σ') = None)
        /\ result_state (mem σ')
           = (if auth then if flag then CANCELLED else FINISHED else RUNNING)).
Proof.
  intros Hl Hg σ. split.
  - destruct (in_order_always sched t th p Hl g Hg) as (_ & rest & Hr & _).
    by exists rest.
  - intros vs k n -> -> Hab Hn auth flag σ'. subst σ'.
    rewrite (runner_alone σ t th n Hl Hab Hn). fold auth flag. rewrite Hg.
    unfold runner_events. simpl.
    rewrite loop_events_yields. simpl.
    change (apply_events (SetState RUNNING :: ?l) ?m)
      with (apply_events l (set_result_state RUNNING m)).
    rewrite <- !app_assoc, apply_events_app, apply_publish_all.
    assert (vs <> [] -> is_Some (last (map snd vs))) as Hlast.
    { intros Hvs. apply last_is_Some. by destruct vs. }
    split; [by destruct auth|].
    destruct (last (map snd vs)) as [v|] eqn:Hv.
    + by destruct auth, flag.
    + repeat split; try by destruct auth, flag.
      intros Hvs. destruct (Hlast Hvs) as [? ?]. done.
Qed.

(** ** Threads without the hook *)

Lemma no_hook th m : th_intrusive th = false -> aborts rt th m = false.
Proof. intros Hi. unfold aborts, hook_installed. by rewrite Hi. Qed.

Lemma not_aborted_step t ex th p m p' m' evs tr :
  th_intrusive th = false -> aborted tr = false ->
  thread_step rt t ex th p m = Some (p', m', evs) ->
  aborted (evs ++ tr) = false.
Proof.
  intros Hi Ht Hs. pose proof (no_hook th m Hi) as Hab.
  step_cases Hs; try done; congruence.
Qed.

Lemma not_aborted_always sched t th p :
  threads (exec rt sched initial) !! t = Some (th, p) ->
  th_intrusive th = false ->
  aborted (trail t (hist (exec rt sched initial))) = false.
Proof.
  intros Hl.
  apply (thread_invariant
           (fun _ th _ tr => th_intrusive th = false -> aborted tr = false))
    with (p := p); [done| |done].
  intros ? ? ? ? ? ? ? ? ? IH Hs Hi. eapply not_aborted_step; [done|by apply IH|done].
Qed.

(** C9: with intrusive_cancel=False no hook is installed, whatever the
    interpreter has, so no trace event aborts the thread, and in no
    interleaving has the hook raised in it.  The Event is read at line 158
    only: at every other line the thread does the same whether or not an
    Event is set meanwhile, and CANCELLED is written by the cleanup alone,
    where the thread that found itself current and reads the Event set
    writes CANCELLED.
    Run alone from line 112 with its Event set, a thread that is
    [running_thread.current] does all that the callback leads to, FINISHED
    or ERROR included, and the cleanup then writes CANCELLED over it. *)
Theorem no_hook_without_intrusive_cancel sched t th p :
  threads (exec rt sched initial) !! t = Some (th, p) ->
  th_intrusive th = false ->
  let σ := exec rt sched initial in
  hook_installed rt th = false
  /\ (forall m, aborts rt th m = false)
  /\ aborted (trail t (hist σ)) = false
  /\ cancelled_in_cleanup (trail t (hist σ))
  /\ (forall ex q m, is_set (th_cancel th) m = true ->
        thread_step rt t ex th (FinallyFlag q) m = Some (FinallyCancelled q, m, [])
        /\ thread_step rt t ex th (FinallyCancelled q) m
           = Some (Exited q, set_result_state CANCELLED m, [SetState CANCELLED]))
  /\ (forall ex q m c',
        (forall x, q <> FinallyFlag x) ->
        thread_step rt t ex th q (set_cancel c' m)
        = match thread_step rt t ex th q m with
          | Some (q', m', evs) => Some (q', set_cancel c' m', evs)
          | None => None
          end)
  /\ (forall n,
        p = SetRunning ->
        is_current t (mem σ) = true ->
        is_set (th_cancel th) (mem σ) = true ->
        remaining rt th SetRunning <= n ->
        let σ' := exec rt (repeat (Step t) n) σ in
        hist σ' =
          by_thread t
            (rev (SetState RUNNING :: body_events true (outcome (th_callback th))
                    ++ [IsCurrent line155 true; SetPointer None;
                        LogInfo "thread done!"; SetState CANCELLED])) ++ hist σ
        /\ result_state (mem σ') = CANCELLED
        /\ running_thread (mem σ') = None
        /\ (forall v, outcome (th_callback th) = Return (Plain v) ->
              body_events true (outcome (th_callback th))
              = [SetResult v; SetError None; IsCurrent line142 true; SetState FINISHED]
              /\ result (mem σ') = Some v /\ error (mem σ') = None)
        /\ (forall e, outcome (th_callback th) = Raise e ->
              isinstance_Exception e = true ->
              body_events true (outcome (th_callback th))
              = [SetError (Some e); IsCurrent line146 true; LogException e; SetState ERROR]
              /\ result (mem σ') = result (mem σ) /\ error (mem σ') = Some e)).
Proof.
  intros Hl Hi σ.
  split; [by unfold hook_installed; rewrite Hi|].
  split; [by intros m; apply no_hook|].
  split; [by eapply not_aborted_always|].
  split; [by apply (cleanup_phase_always sched t th p Hl)|].
  split.
  { intros ex q m Hf. simpl. by rewrite Hf. }
  split.
  { intros ex q m c' Hq.
    destruct q; simpl; unfold on_event, is_current; simpl;
      rewrite ?(no_hook th) by done; try done;
      try (exfalso; by eapply Hq); repeat case_match; done. }
  intros n -> Ha Hf Hn σ'. subst σ'.
  rewrite (runner_alone σ t th n Hl (no_hook th _ Hi) Hn).
  rewrite Ha, Hf. unfold runner_events. simpl.
  change (apply_events (SetState RUNNING :: ?l) ?m)
    with (apply_events l (set_result_state RUNNING m)).
  rewrite apply_events_app. simpl.
  split; [done|]. split; [done|]. split; [done|]. split.
  - intros v ->. done.
  - intros e -> He. simpl. unfold handler_events. rewrite He. done.
Qed.

(** C10: a thread at line 112 whose generator yields the items [vs] and
    then raises an instance [e] of Exception, run alone and not aborted:
    [result.current] keeps the last item, [error.current] becomes [e], the
    thread logs [e] and sets ERROR when it is still
    [running_thread.current] and writes no state otherwise, and after the
    write of [e] it does not call [updater]: the calls of [updater] are
    those of the items. *)
Theorem lazy_sequence_error σ t th n vs k e :
  threads σ !! t = Some (th, SetRunning) ->
  outcome (th_callback th) = Return (Lazy (yields vs (GenRaise k e))) ->
  isinstance_Exception e = true ->
  aborts rt th (mem σ) = false ->
  remaining rt th SetRunning <= n ->
  let auth := is_current t (mem σ) in
  let flag := is_set (th_cancel th) (mem σ) in
  let σ' := exec rt (repeat (Step t) n) σ in
  hist σ' =
    by_thread t
      (rev (SetState RUNNING :: publish_all (map snd vs)
              ++ SetError (Some e) :: IsCurrent line146 auth
              :: (if auth then [LogException e; SetState ERROR] else [])
              ++ finally_events auth flag)) ++ hist σ
  /\ result (mem σ')
     = match last (map snd vs) with
       | Some v => Some v
       | None => result (mem σ)
       end
  /\ error (mem σ') = Some e
  /\ result_state (mem σ')
     = (if auth then if flag then CANCELLED else ERROR else RUNNING).
Proof.
  intros Hl Hg He Hab Hn auth flag σ'. subst σ'.
  rewrite (runner_alone σ t th n Hl Hab Hn). fold auth flag. rewrite Hg.
  unfold runner_events. simpl.
  rewrite loop_events_yields. simpl. unfold handler_events. rewrite He.
  change (apply_events (SetState RUNNING :: ?l) ?m)
    with (apply_events l (set_result_state RUNNING m)).
  rewrite <- !app_assoc, apply_events_app, apply_publish_all.
  split; [by destruct auth|].
  destruct (last (map snd vs)) as [v|]; by destruct auth, flag.
Qed.

(** ** The Event of a lineage whose threads have left [runner] *)

Lemma is_set_elem_of c (m1 m2 : @heap T) :
  is_set c m1 = is_set c m2 -> (c ∈ cancel m1 <-> c ∈ cancel m2).
Proof.
  unfold is_set. intros H.
  rewrite <- (bool_decide_eq_true (c ∈ cancel m1)), H.
  apply bool_decide_eq_true.
Qed.

Lemma agree_off_step c t ex th p m1 m2 :
  agree_off c m1 m2 -> th_cancel th <> c ->
  match thread_step rt t ex th p m1, thread_step rt t ex th p m2 with
  | Some (p1, m1', evs1), Some (p2, m2', evs2) =>
      p1 = p2 /\ evs1 = evs2 /\ agree_off c m1' m2'
  | None, None => True
  | _, _ => False
  end.
Proof.
  intros (Hp & Hr & He & Hs & Hl & Hrc & Hc) Hne.
  pose proof (Hc _ Hne) as Hset.
  assert (aborts rt th m1 = aborts rt th m2) as Hab.
  { unfold aborts. by rewrite Hset, Hrc. }
  assert (is_current t m1 = is_current t m2) as Hcur.
  { unfold is_current. by rewrite Hp. }
  unfold thread_step, on_event. rewrite Hab, Hcur, Hset, Hl, Hp.
  repeat case_match; simplify_eq; try done; repeat split; try done;
    congruence.
Qed.

Lemma same_but_event_act c a σ1 σ2 :
  same_but_event c σ1 σ2 -> runs_on c a = false ->
  same_but_event c (act rt a σ1) (act rt a σ2).
Proof.
  intros (Hm & Ht & Hx) Ha. destruct a as [t|c' i cb|c'|r]; simpl.
  - rewrite <- Ht. destruct (threads σ1 !! t) as [[th p]|] eqn:Hl; [|done].
    replace (exited_in σ2) with (exited_in σ1)
      by (unfold exited_in; by rewrite Ht).
    destruct (decide (th_cancel th = c)) as [Hc|Hc].
    + apply (Hx _ _ _ Hl) in Hc. destruct p; try done.
    + pose proof (agree_off_step c t (exited_in σ1) th p _ _ Hm Hc) as Hstep.
      destruct (thread_step rt t (exited_in σ1) th p (mem σ1)) as [[[p1 m1] e1]|],
        (thread_step rt t (exited_in σ1) th p (mem σ2)) as [[[p2 m2] e2]|];
        try done.
      destruct Hstep as (-> & -> & Hm'). split; [done|]. simpl. split; [done|].
      intros t' th' p' Hl' Hc'.
      destruct (decide (t = t')) as [->|Hne].
      * rewrite list_lookup_insert_eq in Hl' by (by eapply lookup_lt_Some).
        by simplify_eq.
      * rewrite list_lookup_insert_ne in Hl' by done. by eapply Hx.
  - simpl in Ha. apply bool_decide_eq_false in Ha.
    destruct Hm as (Hp & Hr & He & Hs & Hl & Hrc & Hc).
    split; [by repeat split|]. simpl. split; [by rewrite Ht|].
    intros t' th' p' Hl' Hc'.
    apply lookup_app_Some in Hl' as [Hl'|[_ Hl']]; [by eapply Hx|].
    apply list_lookup_singleton_Some in Hl' as [_ Heq].
    unfold spawn in Heq. by simplify_eq.
  - destruct Hm as (Hp & Hr & He & Hs & Hl & Hrc & Hc).
    split; [|done]. repeat split; try done.
    intros c'' Hne. pose proof (is_set_elem_of _ _ _ (Hc c'' Hne)) as Hin.
    unfold is_set. simpl. apply bool_decide_ext.
    rewrite !elem_of_union. by rewrite Hin.
  - destruct Hm as (Hp & Hr & He & Hs & Hl & Hrc & Hc).
    split; [by repeat split|done].
Qed.

Lemma same_but_event_exec c sched : forall σ1 σ2,
  same_but_event c σ1 σ2 ->
  (forall a, In a sched -> runs_on c a = false) ->
  same_but_event c (exec rt sched σ1) (exec rt sched σ2).
Proof.
  induction sched as [|a sched IH]; intros σ1 σ2 Hsim Hno; [done|].
  apply IH.
  - apply same_but_event_act; [done|]. apply Hno. by left.
  - intros a' Hin. apply Hno. by right.
Qed.

Lemma same_but_event_cancel c σ :
  lineage_exited c (threads σ) -> same_but_event c (act rt (Cancel c) σ) σ.
Proof.
  intros Hx. split; [|done]. repeat split.
  intros c' Hne. unfold is_set. simpl. apply bool_decide_ext.
  rewrite elem_of_union, elem_of_singleton. split; [|by right].
  by intros [?|?].
Qed.

(** ** Who can be [running_thread.current] *)

Lemma pointer_step_self t ex th p m p' m' evs :
  thread_step rt t ex th p m = Some (p', m', evs) ->
  (running_thread m = Some t -> holds_pointer p = true) ->
  running_thread m' = Some t -> holds_pointer p' = true.
Proof.
  intros Hs Hp Hm. step_cases Hs; try done;
    try (by apply Hp); unfold is_current in *;
    repeat match goal with
           | H : bool_decide _ = false |- _ => apply bool_decide_eq_false in H
           end; try done; try (by specialize (Hp Hm)).
Qed.

Lemma pointer_step_other t ex th p m p' m' evs :
  thread_step rt t ex th p m = Some (p', m', evs) ->
  running_thread m' = running_thread m \/ running_thread m' = Some t
  \/ running_thread m' = None.
Proof. intros Hs. step_cases Hs; auto. Qed.

(** [running_thread.current] is a thread between lines 97 and 156. *)
Lemma pointer_holder sched t :
  running_thread (mem (exec rt sched initial)) = Some t ->
  exists th p, threads (exec rt sched initial) !! t = Some (th, p)
               /\ holds_pointer p = true.
Proof.
  revert t. induction sched as [|a sched IH] using rev_ind; intros t; [done|].
  rewrite exec_snoc. set (σ := exec rt sched initial) in *.
  destruct a as [t'|c i cb|c|r]; simpl; try done.
  - destruct (threads σ !! t') as [[th p]|] eqn:Hl; [|by apply IH].
    destruct (thread_step rt t' (exited_in σ) th p (mem σ))
      as [[[p' m'] evs]|] eqn:Hs; [|by apply IH].
    simpl. intros Hm. destruct (decide (t' = t)) as [->|Hne].
    + exists th, p'. split.
      * apply list_lookup_insert_eq. by eapply lookup_lt_Some.
      * eapply pointer_step_self; [done| |done].
        intros Hm0. destruct (IH t Hm0) as (th0 & p0 & Hl0 & Hh). by simplify_eq.
    + rewrite list_lookup_insert_ne by done. apply IH.
      destruct (pointer_step_other _ _ _ _ _ _ _ _ Hs) as [H|[H|H]]; congruence.
  - intros Hm. destruct (IH t Hm) as (th & p & Hl & Hh). exists th, p.
    split; [|done]. rewrite lookup_app_l; [done|]. by eapply lookup_lt_Some.
  - apply IH.
  - apply IH.
Qed.

(** C3: once every thread that closes over an Event has left [runner],
    setting the Event changes neither [state] nor [value] nor [error], and
    whatever happens afterwards (steps of other threads, runs on other
    Events, further calls of cancel) leaves the three, and all threads,
    as they are without the call.  Such a thread is not
    [running_thread.current]. *)
Theorem cancel_after_exit_is_noop σ c sched' :
  lineage_exited c (threads σ) ->
  (forall a, In a sched' -> runs_on c a = false) ->
  observed (act rt (Cancel c) σ) = observed σ
  /\ observed (exec rt sched' (act rt (Cancel c) σ)) = observed (exec rt sched' σ)
  /\ threads (exec rt sched' (act rt (Cancel c) σ)) = threads (exec rt sched' σ)
  /\ (forall sched t th p,
        σ = exec rt sched initial ->
        threads σ !! t = Some (th, p) -> th_cancel th = c ->
        running_thread (mem σ) <> Some t).
Proof.
  intros Hx Hno. split; [done|].
  destruct (same_but_event_exec c sched' _ _ (same_but_event_cancel c σ Hx) Hno)
    as ((Hp & Hr & He & Hs & _) & Ht & _).
  split; [|split; [done|]].
  - unfold observed. by rewrite Hr, He, Hs.
  - intros sched t th p Hσ Hl Hc Hm.
    pose proof (Hx _ _ _ Hl Hc) as Hex. subst σ.
    destruct (pointer_holder sched t Hm) as (th' & p' & Hl' & Hh).
    rewrite Hl in Hl'. injection Hl' as <- <-. by destruct p.
Qed.

(** ** Invariants of the process *)

(** What holds at the start and is kept by every step of a thread and by
    every action of the renderer holds after every schedule. *)
Lemma process_invariant (I : @system T -> Prop) :
  I initial ->
  (forall sched t th p p' m' evs,
      let σ := exec rt sched initial in
      I σ -> threads σ !! t = Some (th, p) ->
      thread_step rt t (exited_in σ) th p (mem σ) = Some (p', m', evs) ->
      I {| mem := m'; threads := <[t := (th, p')]> (threads σ);
           hist := by_thread t evs ++ hist σ |}) ->
  (forall sched a,
      let σ := exec rt sched initial in
      is_step_of_any a = false -> I σ -> I (act rt a σ)) ->
  forall sched, I (exec rt sched initial).
Proof.
  intros Hinit Hstep Hact sched.
  induction sched as [|a sched IH] using rev_ind; [done|].
  rewrite exec_snoc.
  destruct a as [t| | |]; try (by apply Hact).
  simpl. destruct (threads (exec rt sched initial) !! t) as [[th p]|] eqn:Hl; [|done].
  destruct (thread_step rt t (exited_in (exec rt sched initial)) th p
              (mem (exec rt sched initial))) as [[[p' m'] evs]|] eqn:Hs; [|done].
  by eapply Hstep.
Qed.

(** ** The lock of line 91 *)

Lemma lock_step t ex th p m p' m' evs :
  thread_step rt t ex th p m = Some (p', m', evs) ->
  (in_lock p' = in_lock p /\ lock m' = lock m)
  \/ (in_lock p = false /\ lock m = None /\ in_lock p' = true /\ lock m' = Some t)
  \/ (in_lock p = true /\ in_lock p' = false /\ lock m' = None).
Proof. intros Hs. step_cases Hs; auto 10. Qed.

Lemma lock_held_inside_always sched : lock_held_inside (exec rt sched initial).
Proof.
  apply process_invariant; clear sched.
  - split; [done|]. intros t th p Hl. done.
  - intros sched t th p p' m' evs σ [Hh Hi] Hl Hs.
    pose proof (lookup_lt_Some _ _ _ Hl) as Hlt.
    destruct (lock_step _ _ _ _ _ _ _ _ Hs)
      as [[Hp Hm]|[(Hp & Hm & Hp' & Hm')|(Hp & Hp' & Hm')]]; split; simpl.
    + intros t' Hk. rewrite Hm in Hk. destruct (Hh t' Hk) as (th' & q & Hl' & Hq).
      destruct (decide (t = t')) as [->|Hne].
      * rewrite list_lookup_insert_eq by done. simplify_eq.
        exists th, p'. by rewrite Hp.
      * rewrite list_lookup_insert_ne by done. eauto.
    + intros t' th' q Hl' Hq. rewrite Hm.
      destruct (decide (t = t')) as [->|Hne].
      * rewrite list_lookup_insert_eq in Hl' by done. simplify_eq.
        apply (Hi _ _ _ Hl). by rewrite <- Hp.
      * rewrite list_lookup_insert_ne in Hl' by done. eauto.
    + intros t' Hk. rewrite Hm' in Hk. simplify_eq.
      rewrite list_lookup_insert_eq by done. eauto.
    + intros t' th' q Hl' Hq. rewrite Hm'.
      destruct (decide (t = t')) as [->|Hne]; [done|].
      rewrite list_lookup_insert_ne in Hl' by done.
      pose proof (Hi _ _ _ Hl' Hq) as Hk. congruence.
    + intros t' Hk. by rewrite Hm' in Hk.
    + intros t' th' q Hl' Hq. rewrite Hm'.
      destruct (decide (t = t')) as [->|Hne].
      * rewrite list_lookup_insert_eq in Hl' by done. simplify_eq. congruence.
      * rewrite list_lookup_insert_ne in Hl' by done.
        pose proof (Hi _ _ _ Hl' Hq) as Hk. pose proof (Hi _ _ _ Hl Hp) as Hk'.
        congruence.
  - intros sched a σ Ha [Hh Hi]. destruct a as [t|c i cb|c|r]; try done.
    split; simpl.
    + intros t Hk. destruct (Hh t Hk) as (th & p & Hl & Hp).
      exists th, p. split; [|done]. rewrite lookup_app_l; [done|].
      by eapply lookup_lt_Some.
    + intros t th p Hl Hp.
      apply lookup_app_Some in Hl as [Hl|[_ Hl]]; [by eapply Hi|].
      apply list_lookup_singleton_Some in Hl as [_ Heq].
      unfold spawn in Heq. by simplify_eq.
Qed.

(** X1: in every interleaving the lock of line 91 is held exactly by the
    thread that is inside the block of lines 91-97, so at most one thread is
    inside it, and a thread that has left the block (or [runner]) never
    holds the lock. *)
Theorem lock_is_mutual_exclusion sched :
  let σ := exec rt sched initial in
  lock_held_inside σ
  /\ (forall t1 t2 th1 p1 th2 p2,
        threads σ !! t1 = Some (th1, p1) -> threads σ !! t2 = Some (th2, p2) ->
        in_lock p1 = true -> in_lock p2 = true -> t1 = t2)
  /\ (forall t th p, threads σ !! t = Some (th, p) ->
        lock (mem σ) = Some t -> in_lock p = true).
Proof.
  intros σ. pose proof (lock_held_inside_always sched) as [Hh Hi]. fold σ in Hh, Hi.
  split; [done|]. split.
  - intros t1 t2 th1 p1 th2 p2 Hl1 Hl2 Hp1 Hp2.
    pose proof (Hi _ _ _ Hl1 Hp1). pose proof (Hi _ _ _ Hl2 Hp2). congruence.
  - intros t th p Hl Hk. destruct (Hh t Hk) as (th' & p' & Hl' & Hp'). congruence.
Qed.

(** ** The Events *)

(** X2: an Event that is set stays set under every schedule (nothing in
    [use_thread] clears one); setting it again changes no cell and no
    thread; and no step of a thread and no run changes which Events are
    set. *)
Theorem event_stays_set σ c sched :
  is_set c (mem σ) = true ->
  is_set c (mem (exec rt sched σ)) = true
  /\ mem (act rt (Cancel c) σ) = mem σ
  /\ threads (act rt (Cancel c) σ) = threads σ
  /\ (forall a, (forall c', a <> Cancel c') ->
        cancel (mem (act rt a σ)) = cancel (mem σ)).
Proof.
  intros Hc. split; [|split; [|split; [done|]]].
  - revert σ Hc. induction sched as [|a sched IH]; intros σ Hc; [done|].
    apply IH. by apply act_keeps_set.
  - simpl. unfold set_cancel. destruct (mem σ) as [ptr res err st lk cs r].
    simpl in *. f_equal. apply bool_decide_eq_true in Hc.
    apply leibniz_equiv. apply subseteq_union_1. by apply singleton_subseteq_l.
  - intros a Ha. destruct a as [t|c' i cb|c'|r]; simpl; try done.
    + destruct (threads σ !! t) as [[th p]|]; [|done].
      destruct (thread_step rt t (exited_in σ) th p (mem σ))
        as [[[p' m'] evs]|] eqn:Hs; [|done].
      simpl. by rewrite (step_keeps_events _ _ _ _ _ _ _ _ Hs).
    + by destruct (Ha c').
Qed.

(** ** The state before the first run *)

Lemma step_state_written t ex th p m p' m' evs :
  thread_step rt t ex th p m = Some (p', m', evs) ->
  result_state m' = result_state m
  \/ (result_state m' <> INITIAL /\ result_state m' <> STARTING).
Proof. intros Hs. step_cases Hs; auto. Qed.

Lemma untouched_or_started sched :
  let σ := exec rt sched initial in
  (untouched σ /\ result (mem σ) = None /\ error (mem σ) = None
   /\ running_thread (mem σ) = None /\ lock (mem σ) = None)
  \/ (threads σ <> [] /\ result_state (mem σ) <> INITIAL).
Proof.
  apply process_invariant; clear sched.
  - left. by repeat split.
  - intros sched t th p p' m' evs σ HI Hl Hs. right.
    destruct HI as [[[Ht _] _]|[Ht Hst]]; [by rewrite Ht in Hl|].
    split; simpl.
    + intros Hnil. apply (f_equal length) in Hnil. rewrite length_insert in Hnil.
      by destruct (threads σ).
    + destruct (step_state_written _ _ _ _ _ _ _ _ Hs) as [->|[? _]]; done.
  - intros sched a σ Ha HI. destruct a as [t|c i cb|c|r]; try done.
    right. simpl. split; [|done]. by destruct (threads σ).
Qed.

(** ** The states one thread writes *)

Lemma stage_step t ex th p m p' m' evs tr :
  stage p (states tr) -> thread_step rt t ex th p m = Some (p', m', evs) ->
  stage p' (states (evs ++ tr)).
Proof.
  intros Hp Hs. step_cases Hs;
    repeat match goal with
           | H : _ \/ _ |- _ => destruct H
           | H : _ /\ _ |- _ => destruct H
           | H : exists _, _ |- _ => destruct H
           end; simplify_eq;
    repeat match goal with H : states _ = _ |- _ => rewrite H end;
    simpl; auto;
    try (by exists false, []; auto);
    try (by exists true, []; auto);
    try (by exists false, [FINISHED]; auto);
    try (by exists true, [FINISHED]; auto);
    try (by exists false, [ERROR]; auto);
    try (by exists true, [ERROR]; auto);
    try (by eexists _, _; eauto);
    try (by repeat match goal with
                   | b : bool |- _ => destruct b
                   end; split).
Qed.

Lemma stage_always sched t th p :
  threads (exec rt sched initial) !! t = Some (th, p) ->
  stage p (states (trail t (hist (exec rt sched initial)))).
Proof.
  intros Hl.
  apply (thread_invariant (fun _ _ p tr => stage p (states tr))) with (th := th);
    [done| |done].
  intros. by eapply stage_step.
Qed.

Lemma stage_lifecycle p l : stage p l -> lifecycle l = true.
Proof.
  destruct p; simpl; intros H;
    repeat match goal with
           | H : _ \/ _ |- _ => destruct H
           | H : _ /\ _ |- _ => destruct H
           | H : exists _, _ |- _ => destruct H
           end; simplify_eq; try done;
    by repeat match goal with b : bool |- _ => destruct b end.
Qed.

(** X3: the state is INITIAL exactly as long as no run was triggered, and
    then value and error are unset, no thread is current and the lock is
    free; no thread ever writes INITIAL or STARTING, so after the first run
    the state is never INITIAL again. *)
Theorem initial_until_first_run sched :
  let σ := exec rt sched initial in
  (result_state (mem σ) = INITIAL <-> threads σ = [])
  /\ (threads σ = [] ->
        observed σ = (INITIAL, None, None)
        /\ running_thread (mem σ) = None /\ lock (mem σ) = None)
  /\ (forall t s, In (SetState s) (trail t (hist σ)) ->
        s <> INITIAL /\ s <> STARTING).
Proof.
  intros σ. pose proof (untouched_or_started sched) as HI. fold σ in HI.
  cbv zeta in HI. split; [|split].
  - destruct HI as [([Ht Hs] & _)|[Ht Hs]]; split; done.
  - intros Ht. destruct HI as [([_ Hs] & Hr & He & Hp & Hk)|[Ht' _]]; [|done].
    unfold observed. by rewrite Hs, Hr, He.
  - intros t s Hin.
    destruct (threads σ !! t) as [[th p]|] eqn:Hl.
    + apply (thread_invariant (fun _ _ _ tr => Forall thread_state tr))
        in Hl; [|done|].
      * rewrite Forall_forall in Hl. apply (Hl (SetState s)).
        by apply list_elem_of_In.
      * intros t' ex th' q m q' m' evs tr Htr Hs.
        step_cases Hs; try done; by constructor.
    + subst σ. rewrite trail_unborn in Hin; [done|]. by apply lookup_ge_None.
Qed.

(** X4: in every interleaving the states one thread writes, in the order it
    writes them, are WAITING (if it had a predecessor), then RUNNING, then
    FINISHED or ERROR, then CANCELLED; each of the later ones can be missing,
    none is written twice and none out of this order.  A thread that has
    left [runner] has written at least one state. *)
Theorem thread_lifecycle sched t th p :
  threads (exec rt sched initial) !! t = Some (th, p) ->
  let l := states (trail t (hist (exec rt sched initial))) in
  lifecycle l = true
  /\ stage p l
  /\ (is_exited p = true -> l <> []).
Proof.
  intros Hl l. pose proof (stage_always sched t th p Hl) as Hs. fold l in Hs.
  split; [by eapply stage_lifecycle|]. split; [done|].
  intros He. destruct p; try done. by destruct Hs.
Qed.

(** ** The order of the hand-over *)

Lemma stamp_le t (h : list (option tid * @event T)) : stamp t h <= length h.
Proof.
  induction h as [|x h IH]; [done|]. simpl.
  destruct (is_registration t x); lia.
Qed.

Lemma stamp_by_thread u t (evs : list (@event T)) h :
  Forall (fun e => forall x, e <> SetPointer (Some x)) evs ->
  stamp u (by_thread t evs ++ h) = stamp u h.
Proof.
  induction 1 as [|e evs He _ IH]; [done|]. simpl.
  destruct e; try done. destruct p as [x|]; [by destruct (He x)|done].
Qed.

Lemma stamp_other u t (e : @event T) h :
  u <> t -> stamp u ((Some t, e) :: h) = stamp u h.
Proof.
  intros Hne. simpl. destruct e; try done. destruct p; [|done].
  by rewrite bool_decide_eq_false_2.
Qed.

Lemma handover_step t ex th p m p' m' evs :
  thread_step rt t ex th p m = Some (p', m', evs) ->
  (exists w, p = SetCurrent w /\ p' = ReleaseLock w
             /\ evs = [SetPointer (Some t)] /\ running_thread m' = Some t)
  \/ (p = CopyCurrent /\ p' = SetCurrent (running_thread m) /\ evs = []
      /\ running_thread m' = running_thread m)
  \/ (registered p' = registered p
      /\ Forall (fun e => forall x, e <> SetPointer (Some x)) evs
      /\ (running_thread m' = running_thread m \/ running_thread m' = None)
      /\ (forall w, waits_for p' = Some w -> waits_for p = Some w)).
Proof.
  intros Hs. step_cases Hs;
    try (right; right; repeat split; auto; by repeat constructor).
  - right. left. by repeat split.
  - left. eexists. by repeat split.
Qed.

Lemma handover_order_always sched : handover_order (exec rt sched initial).
Proof.
  apply process_invariant; clear sched.
  - split; [done|]. split; [|done]. intros t th p Hl. done.
  - intros sched t th p p' m' evs σ (Hptr & Hth & Hun) Hl Hs.
    pose proof (lookup_lt_Some _ _ _ Hl) as Hlt.
    destruct (Hth _ _ _ Hl) as (Hunreg & Hreg & Hw).
    destruct (handover_step _ _ _ _ _ _ _ _ Hs)
      as [(w & -> & -> & -> & Hm)|[(-> & -> & -> & Hm)|(Hr & Hev & Hm & Hwf)]];
      unfold handover_order; simpl.
    + (* line 97 *)
      assert (stamp t (hist σ) = 0) as Ht0 by (by apply Hunreg).
      assert (forall u, 0 < stamp u (hist σ) ->
                stamp u ((Some t, SetPointer (Some t)) :: hist σ) = stamp u (hist σ))
        as Hkeep.
      { intros u Hu. apply stamp_other. intros ->. lia. }
      split; [|split].
      * intros w' Hw'. rewrite Hm in Hw'. simplify_eq.
        rewrite bool_decide_eq_true_2 by done. lia.
      * intros u thu pu Hlu. destruct (decide (t = u)) as [<-|Hne].
        -- rewrite list_lookup_insert_eq in Hlu by done. simplify_eq.
           rewrite bool_decide_eq_true_2 by done.
           split; [done|]. split; [lia|].
           intros w' Hw'. destruct (Hw w' Hw') as [Hpos _].
           pose proof (Hkeep w' Hpos) as Hk. simpl in Hk.
           assert (w' <> t) as Hne by (intros ->; lia).
           pose proof (stamp_other w' t (SetPointer (Some t)) (hist σ) Hne) as Hk'.
           simpl in Hk'. rewrite Hk'.
           split; [done|]. intros _. pose proof (stamp_le w' (hist σ)). lia.
        -- rewrite list_lookup_insert_ne in Hlu by done.
           destruct (Hth _ _ _ Hlu) as (Hu1 & Hu2 & Hu3).
           pose proof (stamp_other u t (SetPointer (Some t)) (hist σ)
                         (not_eq_sym Hne)) as Hk.
           simpl in Hk. rewrite Hk.
           split; [done|]. split; [done|].
           intros w' Hw'. destruct (Hu3 w' Hw') as [Hpos Hlt'].
           assert (w' <> t) as Hne' by (intros ->; lia).
           pose proof (stamp_other w' t (SetPointer (Some t)) (hist σ) Hne') as Hk'.
           simpl in Hk'. by rewrite Hk'.
      * intros u Hu. rewrite length_insert in Hu.
        assert (u <> t) as Hne by lia.
        pose proof (stamp_other u t (SetPointer (Some t)) (hist σ) Hne) as Hk.
        simpl in Hk. rewrite Hk. by apply Hun.
    + (* line 96 *)
      split; [|split].
      * intros w' Hw'. apply Hptr. congruence.
      * intros u thu pu Hlu. destruct (decide (t = u)) as [<-|Hne].
        -- rewrite list_lookup_insert_eq in Hlu by done. simplify_eq. simpl.
           split; [intros _; by apply Hunreg|]. split; [done|].
           intros w' Hw'. split; [by apply Hptr|done].
        -- rewrite list_lookup_insert_ne in Hlu by done. by apply (Hth _ _ _ Hlu).
      * intros u Hu. rewrite length_insert in Hu. by apply Hun.
    + (* every other line *)
      split; [|split].
      * intros w' Hw'. rewrite stamp_by_thread by done.
        destruct Hm as [Hm|Hm]; [|congruence]. apply Hptr. congruence.
      * intros u thu pu Hlu. rewrite stamp_by_thread by done.
        destruct (decide (t = u)) as [<-|Hne].
        -- rewrite list_lookup_insert_eq in Hlu by done. simplify_eq.
           rewrite Hr. split; [done|]. split; [done|].
           intros w' Hw'. rewrite stamp_by_thread by done. by apply Hw, Hwf.
        -- rewrite list_lookup_insert_ne in Hlu by done.
           destruct (Hth _ _ _ Hlu) as (Hu1 & Hu2 & Hu3).
           split; [done|]. split; [done|].
           intros w' Hw'. rewrite stamp_by_thread by done. by apply Hu3.
      * intros u Hu. rewrite length_insert in Hu.
        rewrite stamp_by_thread by done. by apply Hun.
  - intros sched a σ Ha (Hptr & Hth & Hun). destruct a as [t|c i cb|c|r]; try done.
    unfold handover_order. simpl.
    + split; [done|]. split.
      * intros u thu pu Hlu.
        apply lookup_app_Some in Hlu as [Hlu|[Hge Hlu]]; [by apply (Hth _ _ _ Hlu)|].
        apply list_lookup_singleton_Some in Hlu as [Hu Heq].
        unfold spawn in Heq. simplify_eq. simpl.
        split; [intros _; apply Hun; lia|]. split; done.
      * intros u Hu. rewrite length_app in Hu. simpl in Hu. apply Hun. lia.
Qed.

Lemma stamped_thread sched w :
  0 < stamp w (hist (exec rt sched initial)) ->
  exists th p, threads (exec rt sched initial) !! w = Some (th, p)
               /\ registered p = true.
Proof.
  intros Hpos. destruct (handover_order_always sched) as (_ & Hth & Hun).
  destruct (threads (exec rt sched initial) !! w) as [[th p]|] eqn:Hl.
  - exists th, p. split; [done|]. destruct (Hth _ _ _ Hl) as (H0 & _).
    destruct (registered p); [done|]. specialize (H0 eq_refl). lia.
  - apply lookup_ge_None in Hl. specialize (Hun _ Hl). lia.
Qed.

(** X5: in every interleaving the thread a thread waits for
    ([wait_for_thread]) is another thread, one that was started and has
    executed line 97 before it; so [join] is never called on the calling
    thread or on a thread that was not started, the two cases in which it
    raises. *)
Theorem join_target_is_started sched t th p w :
  threads (exec rt sched initial) !! t = Some (th, p) ->
  waits_for p = Some w ->
  w <> t
  /\ exists thw pw,
       threads (exec rt sched initial) !! w = Some (thw, pw)
       /\ registered pw = true.
Proof.
  intros Hl Hw. destruct (handover_order_always sched) as (_ & Hth & _).
  destruct (Hth _ _ _ Hl) as (H0 & H1 & Hwf).
  destruct (Hwf w Hw) as [Hpos Hlt].
  split; [|by apply stamped_thread].
  intros ->.
  destruct (registered p); [specialize (Hlt eq_refl)|specialize (H0 eq_refl)]; lia.
Qed.

(** ** No deadlock *)

Lemma step_blocked t ex th p m :
  thread_step rt t ex th p m = None ->
  (p = AcquireLock /\ exists h, lock m = Some h)
  \/ (exists w, p = Join w /\ ex w = false)
  \/ is_exited p = true.
Proof.
  intros Hs. unfold thread_step, on_event in Hs.
  repeat case_match; simplify_eq; eauto.
Qed.

Lemma inside_lock_moves t ex th p m :
  in_lock p = true -> is_Some (thread_step rt t ex th p m).
Proof. destruct p; try done; simpl; eauto. Qed.

Lemma some_thread_moves sched n : forall t th p,
  threads (exec rt sched initial) !! t = Some (th, p) ->
  is_exited p = false ->
  stamp t (hist (exec rt sched initial)) <= n ->
  can_move rt (exec rt sched initial).
Proof.
  set (σ := exec rt sched initial).
  destruct (lock_held_inside_always sched) as [Hh _].
  destruct (handover_order_always sched) as (_ & Hth & _).
  fold σ in Hh, Hth.
  induction n as [|n IH]; intros t th p Hl Hp Hn.
  all: destruct (thread_step rt t (exited_in σ) th p (mem σ)) as [x|] eqn:Hs;
    [by exists t, th, p, x|].
  all: destruct (step_blocked _ _ _ _ _ Hs) as [[-> [h Hk]]|[(w & -> & Hw)|He]];
    [|
     |congruence].
  all: try (destruct (Hh h Hk) as (thh & ph & Hlh & Hph);
            destruct (inside_lock_moves h (exited_in σ) thh ph (mem σ) Hph) as [x Hx];
            by exists h, thh, ph, x).
  all: destruct (Hth _ _ _ Hl) as (_ & _ & Hwf);
    destruct (Hwf w eq_refl) as [Hpos Hlt]; specialize (Hlt eq_refl).
  - lia.
  - destruct (stamped_thread sched w Hpos) as (thw & pw & Hlw & _).
    fold σ in Hlw. apply (IH w thw pw Hlw); [|lia].
    unfold exited_in in Hw. by rewrite Hlw in Hw.
Qed.

(** X6: the hand-over cannot deadlock: in every interleaving, as long as
    some thread has not left [runner], some thread can take a step.  (A
    thread before the lock waits for a thread inside the block, which can
    move; a thread in [join] waits for a thread that executed line 97
    before it.) *)
Theorem no_deadlock sched t th p :
  threads (exec rt sched initial) !! t = Some (th, p) ->
  is_exited p = false ->
  can_move rt (exec rt sched initial).
Proof. intros Hl Hp. by eapply some_thread_moves. Qed.

(** ** Where the published values come from *)

Lemma sourced_step t ex th p m p' m' evs tr :
  sourced th p tr -> thread_step rt t ex th p m = Some (p', m', evs) ->
  sourced th p' (evs ++ tr).
Proof.
  unfold sourced, rest_of.
  intros (Hv & He & Hp) Hs. step_cases Hs;
    repeat match goal with
           | H : _ /\ _ |- _ => destruct H
           end;
    (split; [|split]);
    try done; try (by eauto);
    try (intros ? [?|?]; simplify_eq; by eauto);
    try (unfold produced, raised;
         match goal with H : _ = outcome _ |- _ => rewrite <- H end;
         simpl; by eauto);
    try (by repeat split; eauto).
  destruct Hp as [Hp| ->]; done.
Qed.

Lemma sourced_always sched t th p :
  threads (exec rt sched initial) !! t = Some (th, p) ->
  sourced th p (trail t (hist (exec rt sched initial))).
Proof.
  intros Hl.
  apply (thread_invariant (fun _ th p tr => sourced th p tr)); [| |done].
  - intros ? ?. by repeat split.
  - intros. by eapply sourced_step.
Qed.

Lemma result_recorded sched v :
  result (mem (exec rt sched initial)) = Some v ->
  exists t, In (Some t, SetResult v) (hist (exec rt sched initial)).
Proof.
  induction sched as [|a sched IH] using rev_ind; [done|].
  rewrite exec_snoc. set (σ := exec rt sched initial) in *.
  destruct a as [t| | |]; simpl; try (intros H; destruct (IH H); eauto; fail).
  destruct (threads σ !! t) as [[th p]|]; [|done].
  destruct (thread_step rt t (exited_in σ) th p (mem σ))
    as [[[p' m'] evs]|] eqn:Hs; [|done].
  simpl. intros He.
  destruct (step_frame _ _ _ _ _ _ _ _ Hs) as (_ & [Hu|(x & -> & Hx)] & _).
  - rewrite Hu in He. destruct (IH He) as [t' Hin]. exists t'.
    apply in_or_app. by right.
  - exists t. rewrite Hx in He. simplify_eq. by left.
Qed.

(** X7: in every interleaving, a value in [result.current] was returned or
    yielded by the callback of one of the threads, and an exception in
    [error.current] was raised by the callback of one of the threads; what
    each thread writes into the two comes from its own callback. *)
Theorem published_values_come_from_callbacks sched :
  let σ := exec rt sched initial in
  (forall v, result (mem σ) = Some v ->
     exists t th p, threads σ !! t = Some (th, p)
                    /\ In v (produced (th_callback th)))
  /\ (forall e, error (mem σ) = Some e ->
        exists t th p, threads σ !! t = Some (th, p)
                       /\ raised (th_callback th) = Some e)
  /\ (forall t th p, threads σ !! t = Some (th, p) ->
        (forall v, In (SetResult v) (trail t (hist σ)) ->
           In v (produced (th_callback th)))
        /\ (forall e, In (SetError (Some e)) (trail t (hist σ)) ->
              raised (th_callback th) = Some e)).
Proof.
  intros σ. split; [|split].
  - intros v Hv. destruct (result_recorded sched v Hv) as [t Hin].
    destruct (trail_of_thread _ _ _ Hin) as (th & p & Hl).
    exists t, th, p. split; [done|].
    destruct (sourced_always sched t th p Hl) as (Hs & _).
    apply Hs. by apply trail_In.
  - intros e He. destruct (error_recorded sched e He) as [t Hin].
    destruct (trail_of_thread _ _ _ Hin) as (th & p & Hl).
    exists t, th, p. split; [done|].
    destruct (sourced_always sched t th p Hl) as (_ & Hs & _).
    apply Hs. by apply trail_In.
  - intros t th p Hl. destruct (sourced_always sched t th p Hl) as (H1 & H2 & _).
    done.
Qed.


(** ** Runs of one thread, from the run to the schedule *)

Lemma performs_exec σ t th p evs q n :
  threads σ !! t = Some (th, p) ->
  performs rt t th p (mem σ) evs (Exited q) ->
  remaining rt th p <= n ->
  exec rt (repeat (Step t) n) σ =
    {| mem := apply_events evs (mem σ);
       threads := <[t := (th, Exited q)]> (threads σ);
       hist := by_thread t (rev evs) ++ hist σ |}.
Proof.
  intros Hl [k Hr] Hn.
  pose proof (runs_bound _ _ _ _ _ _ _ _ Hr) as Hk.
  replace n with (k + (n - k)) by lia.
  rewrite repeat_app, exec_app.
  rewrite (runs_exec _ _ _ _ _ _ _ _ Hr σ Hl eq_refl).
  apply exec_stutter. unfold exited_in. simpl.
  rewrite list_lookup_insert_eq by (by eapply lookup_lt_Some). done.
Qed.

(** ** The hook aborts the call *)

Lemma performs_abort me th m :
  aborts rt th m = true ->
  0 < events (th_callback th) + exit_events rt ->
  performs rt me th SetRunning m [SetState RUNNING; RaiseCancelled]
    (FinallyCheck None).
Proof.
  intros Hab Hev.
  assert (aborts rt th (set_result_state RUNNING m) = true) as Hab1 by done.
  destruct (events (th_callback th)) as [|k] eqn:Hk.
  - destruct (exit_events rt) as [|j] eqn:Hj; [simpl in Hev; lia|].
    eapply (performs_step _ _ _ _ _ _ [_] [_]); [done|done|]. rewrite Hk.
    eapply (performs_step _ _ _ _ _ _ [] [_]); [done|done|]. rewrite Hj.
    eapply (performs_step _ _ _ _ _ _ [_] []);
      [simpl; unfold on_event; by rewrite Hab1|done|].
    eapply (performs_step _ _ _ _ _ _ [] []); [done|done|].
    apply performs_nothing.
  - eapply (performs_step _ _ _ _ _ _ [_] [_]); [done|done|]. rewrite Hk.
    eapply (performs_step _ _ _ _ _ _ [_] []);
      [simpl; unfold on_event; by rewrite Hab1|done|].
    eapply (performs_step _ _ _ _ _ _ [] []); [done|done|].
    apply performs_nothing.
Qed.

Lemma aborts_is_set th m : aborts rt th m = true -> is_set (th_cancel th) m = true.
Proof.
  unfold aborts, tracefunc. destruct (hook_installed rt th); [|done].
  by destruct (is_set (th_cancel th) m).
Qed.

(** X8: cancellation discards the work.  A thread at line 112 with the hook
    installed, its Event set and no render pass active, whose callback (or
    the leaving of the guarded block) delivers at least one trace event, run
    alone: the hook raises at the first trace event, the thread writes
    neither [result] nor [error] nor FINISHED nor ERROR, and the cleanup
    sets CANCELLED and clears [running_thread.current] when the thread is
    still current; otherwise the state stays as the thread left it at line
    112. *)
Theorem cancellation_discards_work σ t th n :
  threads σ !! t = Some (th, SetRunning) ->
  aborts rt th (mem σ) = true ->
  0 < events (th_callback th) + exit_events rt ->
  remaining rt th SetRunning <= n ->
  let auth := is_current t (mem σ) in
  let σ' := exec rt (repeat (Step t) n) σ in
  result (mem σ') = result (mem σ)
  /\ error (mem σ') = error (mem σ)
  /\ result_state (mem σ') = (if auth then CANCELLED else RUNNING)
  /\ running_thread (mem σ') = (if auth then None else running_thread (mem σ))
  /\ threads σ' !! t = Some (th, Exited None)
  /\ hist σ' =
     by_thread t
       (rev (SetState RUNNING :: RaiseCancelled :: IsCurrent line155 auth
               :: (if auth then [SetPointer None; LogInfo "thread done!";
                                 SetState CANCELLED] else []))) ++ hist σ.
Proof.
  intros Hl Hab Hev Hn auth σ'. subst σ'.
  pose proof (performs_then_finally t th SetRunning (mem σ) _ None
                (performs_abort t th (mem σ) Hab Hev)) as Hp.
  rewrite (aborts_is_set _ _ Hab) in Hp. fold auth in Hp.
  assert (Forall keeps_pointer_and_flag [@SetState T RUNNING; RaiseCancelled])
    as Hk by (by repeat constructor).
  rewrite (performs_exec σ t th SetRunning _ None n Hl (Hp Hk) Hn).
  simpl. rewrite list_lookup_insert_eq by (by eapply lookup_lt_Some).
  by destruct auth.
Qed.

(** X9: a callback that raises an exception that is no instance of
    Exception (SystemExit, KeyboardInterrupt, a CancelledError of its own),
    in a thread at line 112 that the hook does not abort, run alone:
    [error.current] and [result.current] stay as they are, the exception is
    not logged, the state is not set to ERROR and stays RUNNING unless the
    cleanup of a still current thread finds its Event set; the cleanup runs,
    and the exception leaves [runner] unless it is a CancelledError. *)
Theorem exception_outside_Exception σ t th n e :
  threads σ !! t = Some (th, SetRunning) ->
  outcome (th_callback th) = Raise e ->
  isinstance_Exception e = false ->
  aborts rt th (mem σ) = false ->
  remaining rt th SetRunning <= n ->
  let auth := is_current t (mem σ) in
  let flag := is_set (th_cancel th) (mem σ) in
  let σ' := exec rt (repeat (Step t) n) σ in
  result (mem σ') = result (mem σ)
  /\ error (mem σ') = error (mem σ)
  /\ result_state (mem σ') = (if auth && flag then CANCELLED else RUNNING)
  /\ running_thread (mem σ') = (if auth then None else running_thread (mem σ))
  /\ threads σ' !! t
     = Some (th, Exited (if isinstance_CancelledError e then None else Some e))
  /\ hist σ' =
     by_thread t (rev (SetState RUNNING :: finally_events auth flag)) ++ hist σ.
Proof.
  intros Hl Ho He Hab Hn auth flag σ'. subst σ'.
  rewrite (runner_alone σ t th n Hl Hab Hn). fold auth flag. rewrite Ho.
  simpl. unfold runner_events, handler_events, escapes_handlers. simpl.
  rewrite He. simpl.
  rewrite list_lookup_insert_eq by (by eapply lookup_lt_Some).
  by destruct auth, flag.
Qed.

(** ** One run after another *)

(** Lines 91-97 with the lock free and no thread current. *)
Lemma runs_register_free me th m :
  lock m = None -> running_thread m = None ->
  runs rt me th 4 AcquireLock m [SetPointer (Some me)] SetRunning
    (set_running_thread (Some me) m).
Proof.
  intros Hk Hp.
  replace (set_running_thread (Some me) m)
    with (set_lock None (set_running_thread (Some me) (set_lock (Some me) m))).
  2:{ destruct m. simpl in *. by subst. }
  eapply (runs_step rt me th 3 AcquireLock m TestCurrent (set_lock (Some me) m) []
            _ _ [SetPointer (Some me)]); [simpl; by rewrite Hk|].
  eapply (runs_step rt me th 2 TestCurrent _ (SetCurrent None) (set_lock (Some me) m) []
            _ _ [SetPointer (Some me)]); [simpl; by rewrite Hp|].
  eapply (runs_step rt me th 1 (SetCurrent None) _ (ReleaseLock None)
            (set_running_thread (Some me) (set_lock (Some me) m))
            [SetPointer (Some me)] _ _ []); [done|].
  eapply (runs_step rt me th 0 (ReleaseLock None) _ SetRunning _ [] _ _ []); [done|].
  constructor.
Qed.

(** One run in a quiescent process, its thread run to the end. *)
Lemma run_once σ c i cb n :
  quiescent σ ->
  aborts rt (closure_for c i cb) (mem σ) = false ->
  4 + remaining rt (closure_for c i cb) SetRunning <= n ->
  let t := length (threads σ) in
  let evs := SetPointer (Some t)
               :: runner_events true (is_set c (mem σ)) (outcome cb) in
  exec rt (Run c i cb :: repeat (Step t) n) σ =
    {| mem := apply_events evs (set_result_state STARTING (mem σ));
       threads := threads σ ++ [(closure_for c i cb, Exited (escapes (outcome cb)))];
       hist := by_thread t (rev evs) ++ (None, LogInfo "starting thread: %r")
                 :: (None, SetState STARTING) :: hist σ |}.
Proof.
  intros [Hp Hk] Hab Hn t evs.
  change (exec rt (Run c i cb :: repeat (Step t) n) σ)
    with (exec rt (repeat (Step t) n) (act rt (Run c i cb) σ)).
  set (σ1 := act rt (Run c i cb) σ).
  assert (threads σ1 !! t = Some (closure_for c i cb, AcquireLock)) as Hl.
  { simpl. rewrite lookup_app_r by done. by rewrite Nat.sub_diag. }
  pose proof (runs_register_free t (closure_for c i cb) (mem σ1)) as Hreg.
  specialize (Hreg Hk Hp).
  set (m2 := set_running_thread (Some t) (mem σ1)) in *.
  destruct (performs_runner t (closure_for c i cb) m2) as [k Hrun]; [done|].
  assert (is_current t m2 = true) as Hcur by (by apply bool_decide_eq_true).
  rewrite Hcur in Hrun.
  change (is_set (th_cancel (closure_for c i cb)) m2) with (is_set c (mem σ)) in Hrun.
  pose proof (runs_trans _ _ _ _ _ _ _ _ _ _ _ _ Hreg Hrun) as Hall.
  pose proof (runs_bound _ _ _ _ _ _ _ _ Hrun) as Hb.
  replace n with ((4 + k) + (n - (4 + k))) by lia.
  rewrite repeat_app, exec_app.
  rewrite (runs_exec _ _ _ _ _ _ _ _ Hall σ1 Hl eq_refl).
  rewrite exec_stutter.
  2:{ unfold exited_in. simpl.
      rewrite list_lookup_insert_eq; [done|]. rewrite length_app. simpl. lia. }
  f_equal. simpl.
  replace t with (length (threads σ) + 0) at 1 by lia.
  by rewrite insert_app_r.
Qed.

Lemma lock_apply_events (evs : list (@event T)) m :
  lock (apply_events evs m) = lock m /\ rc (apply_events evs m) = rc m.
Proof.
  revert m. induction evs as [|e evs IH]; intros m; [done|].
  change (apply_events (e :: evs) m) with (apply_events evs (apply_event m e)).
  destruct (IH (apply_event m e)) as [-> ->]. by destruct e.
Qed.

Lemma keeps_apply_events (evs : list (@event T)) m :
  Forall keeps_pointer_and_flag evs ->
  running_thread (apply_events evs m) = running_thread m
  /\ cancel (apply_events evs m) = cancel m.
Proof.
  intros H. revert m. induction H as [|e evs He _ IH]; intros m; [done|].
  change (apply_events (e :: evs) m) with (apply_events evs (apply_event m e)).
  destruct (IH (apply_event m e)) as [-> ->]. by destruct e.
Qed.

(** The cells after a thread that ran alone from the lock to the end. *)
Lemma runner_leaves t flag c m :
  let m' := apply_events (SetPointer (Some t) :: runner_events true flag c) m in
  running_thread m' = None /\ lock m' = lock m /\ cancel m' = cancel m
  /\ rc m' = rc m.
Proof.
  intros m'.
  destruct (lock_apply_events (SetPointer (Some t) :: runner_events true flag c) m)
    as [Hl Hr].
  split; [|split; [done|split; [|done]]]; subst m'; unfold runner_events;
    rewrite !app_comm_cons, apply_events_app.
  - by destruct flag.
  - transitivity
      (cancel (apply_events
                 (SetPointer (Some t) :: SetState RUNNING :: body_events true c) m)).
    { by destruct flag. }
    change (apply_events (SetPointer (Some t) :: SetState RUNNING :: ?evs) m)
      with (apply_events evs
              (set_result_state RUNNING (set_running_thread (Some t) m))).
    by destruct (keeps_apply_events (body_events true c)
                   (set_result_state RUNNING (set_running_thread (Some t) m))
                   (body_events_keep true c)) as [_ ->].
Qed.

(** What a run in a quiescent process leaves behind. *)
Lemma run_once_leaves σ c i cb n :
  quiescent σ ->
  aborts rt (closure_for c i cb) (mem σ) = false ->
  4 + remaining rt (closure_for c i cb) SetRunning <= n ->
  let flag := is_set c (mem σ) in
  let σ' := exec rt (Run c i cb :: repeat (Step (length (threads σ))) n) σ in
  quiescent σ'
  /\ threads σ' = threads σ ++ [(closure_for c i cb, Exited (escapes (outcome cb)))]
  /\ cancel (mem σ') = cancel (mem σ)
  /\ (forall v, outcome cb = Return (Plain v) ->
        observed σ' = (if flag then CANCELLED else FINISHED, Some v, None))
  /\ (forall e, outcome cb = Raise e -> isinstance_Exception e = true ->
        observed σ' = (if flag then CANCELLED else ERROR, result (mem σ), Some e)).
Proof.
  intros Hq Hab Hn flag σ'. subst σ'.
  rewrite (run_once σ c i cb n Hq Hab Hn). fold flag.
  set (t := length (threads σ)).
  destruct (runner_leaves t flag (outcome cb) (set_result_state STARTING (mem σ)))
    as (Hp & Hk & Hc & _).
  destruct Hq as [_ Hk0].
  unfold quiescent, observed. cbn [mem threads hist].
  split; [split; [exact Hp|exact (eq_trans Hk Hk0)]|].
  split; [done|]. split; [exact Hc|]. split.
  - intros v ->. by destruct flag.
  - intros e -> He. unfold runner_events, body_events, handler_events.
    rewrite He. by destruct flag.
Qed.

(** X10: a run in a quiescent process.  With no thread current and the lock
    free, [run] followed by enough steps of the thread it starts, which the
    hook does not abort: the thread takes the lock, finds no thread to wait
    for, never sets WAITING, does the work as the current thread and leaves
    [runner]; afterwards again no thread is current and the lock is free,
    the Events are as before, and the observer reads FINISHED with the
    value of a callback that returns one and ERROR with the exception of a
    callback that raises an Exception (CANCELLED instead when the Event was
    set throughout, the value and the error being stored all the same). *)
Theorem run_in_quiescent_process σ c i cb n :
  quiescent σ ->
  aborts rt (closure_for c i cb) (mem σ) = false ->
  4 + remaining rt (closure_for c i cb) SetRunning <= n ->
  let t := length (threads σ) in
  let flag := is_set c (mem σ) in
  let σ' := exec rt (Run c i cb :: repeat (Step t) n) σ in
  quiescent σ'
  /\ threads σ' = threads σ ++ [(closure_for c i cb, Exited (escapes (outcome cb)))]
  /\ hist σ' =
     by_thread t (rev (SetPointer (Some t) :: runner_events true flag (outcome cb)))
       ++ (None, LogInfo "starting thread: %r") :: (None, SetState STARTING)
       :: hist σ
  /\ cancel (mem σ') = cancel (mem σ)
  /\ (forall v, outcome cb = Return (Plain v) ->
        observed σ' = (if flag then CANCELLED else FINISHED, Some v, None))
  /\ (forall e, outcome cb = Raise e -> isinstance_Exception e = true ->
        observed σ' = (if flag then CANCELLED else ERROR, result (mem σ), Some e)).
Proof.
  intros Hq Hab Hn t flag σ'.
  destruct (run_once_leaves σ c i cb n Hq Hab Hn) as (H1 & H2 & H3 & H4 & H5).
  split; [done|]. split; [done|]. split; [|done].
  subst σ' t. by rewrite (run_once σ c i cb n Hq Hab Hn).
Qed.

Lemma not_set_no_abort th m :
  is_set (th_cancel th) m = false -> aborts rt th m = false.
Proof.
  unfold aborts, tracefunc. intros ->. by destruct (hook_installed rt th).
Qed.

(** X11: effects in turn.  In a quiescent process the effect is run, its
    thread is given the steps it needs and the effect is cleaned up (line
    166), and so on with a fresh Event each time (line 51), none of them set
    beforehand: every thread takes the lock, finds no thread to wait for and
    leaves [runner]; at the end no thread is current and the lock is free,
    all the Events of the effects are set and no other has changed, and the
    observer reads the outcome of the last effect, FINISHED with its value
    or ERROR with its exception, although its cleanup has set its Event
    since. *)
Theorem effects_in_turn σ rs :
  quiescent σ ->
  NoDup (event_of <$> rs) ->
  Forall (fun r => event_of r ∉ cancel (mem σ)) rs ->
  Forall (enough_steps rt) rs ->
  let σ' := exec rt (in_turn (length (threads σ)) rs) σ in
  quiescent σ'
  /\ threads σ' = threads σ ++ (finished_thread <$> rs)
  /\ cancel (mem σ') = list_to_set (event_of <$> rs) ∪ cancel (mem σ)
  /\ (forall c i cb n, last rs = Some (c, i, cb, n) ->
        (forall v, outcome cb = Return (Plain v) ->
           observed σ' = (FINISHED, Some v, None))
        /\ (forall e, outcome cb = Raise e -> isinstance_Exception e = true ->
              result_state (mem σ') = ERROR /\ error (mem σ') = Some e)).
Proof.
  revert σ. induction rs as [|[[[c i] cb] n] rs IH]; intros σ Hq Hnd Hf He σ'.
  - subst σ'. simpl. split; [done|]. split; [by rewrite app_nil_r|].
    split; [|done]. by rewrite (left_id_L ∅ (∪)).
  - rewrite fmap_cons in Hnd. apply NoDup_cons in Hnd as [Hc Hnd].
    apply Forall_cons in Hf as [Hfc Hf]. apply Forall_cons in He as [Hn He].
    simpl in Hc, Hfc, Hn.
    assert (is_set c (mem σ) = false) as Hs by (by apply bool_decide_eq_false).
    pose proof (run_once_leaves σ c i cb n Hq
                  (not_set_no_abort (closure_for c i cb) (mem σ) Hs) Hn) as Hrun.
    cbv zeta in Hrun. rewrite Hs in Hrun.
    set (σ1 := exec rt (Run c i cb :: repeat (Step (length (threads σ))) n) σ) in *.
    destruct Hrun as (Hq1 & Ht1 & Hc1 & Hv1 & He1).
    set (σ2 := act rt (Cancel c) σ1).
    assert (length (threads σ2) = S (length (threads σ))) as Hlen.
    { change (threads σ2) with (threads σ1). rewrite Ht1, length_app.
      simpl. lia. }
    assert (σ' = exec rt (in_turn (length (threads σ2)) rs) σ2) as ->.
    { rewrite Hlen. subst σ' σ2 σ1. simpl in_turn.
      by rewrite app_comm_cons, exec_app. }
    assert (quiescent σ2) as Hq2 by done.
    assert (Forall (fun r => event_of r ∉ cancel (mem σ2)) rs) as Hf2.
    { apply Forall_forall. intros r Hr. simpl. rewrite Hc1.
      rewrite Forall_forall in Hf. intros [Hx|Hx]%elem_of_union.
      - apply elem_of_singleton in Hx. apply Hc. rewrite <- Hx.
        exact (list_elem_of_fmap_2 event_of rs r Hr).
      - by apply (Hf r). }
    destruct (IH σ2 Hq2 Hnd Hf2 He) as (Hq' & Ht' & Hc' & Hl').
    split; [done|]. split; [|split].
    + rewrite Ht'. simpl threads. rewrite Ht1. by rewrite <- app_assoc.
    + rewrite Hc'. simpl. rewrite Hc1.
      by rewrite (assoc_L (∪)), (comm_L (∪) _ {[c]}).
    + intros c' i' cb' n' Hlast. destruct rs as [|r' rs'].
      * simpl in Hlast. injection Hlast as <- <- <- <-. split.
        -- intros v Hv. exact (Hv1 v Hv).
        -- intros e Ho Hx. pose proof (He1 e Ho Hx) as Hobs.
           unfold observed in Hobs. injection Hobs as H1 _ H3.
           split; [exact H1|exact H3].
      * rewrite last_cons_cons in Hlast. exact (Hl' c' i' cb' n' Hlast).
Qed.

End Facts.

(** * The model run on concrete processes *)


(** C2, counterexample: the callback has returned 42, cancel() is called,
    the thread sets FINISHED (line 143) and, in the cleanup, finds itself
    current and its Event set: line 159 moves the state from FINISHED to
    CANCELLED. *)
Lemma finished_becomes_cancelled :
  (let σ := exec cpython cancelled_after_return initial in
   result_state (mem σ) = FINISHED
   /\ threads σ !! 0 = Some (closure_of 0 true returns_42, FinallyCancelled None)
   /\ result_state (mem (act cpython (Step 0) σ)) = CANCELLED
   /\ rev (trail 0 (hist (act cpython (Step 0) σ)))
      = [SetPointer (Some 0); SetState RUNNING; SetResult 42; SetError None;
         IsCurrent line142 true; SetState FINISHED; IsCurrent line155 true;
         SetPointer None; LogInfo "thread done!"; SetState CANCELLED])
  /\ ~ @cancelled_from_running_only nat cpython.
Proof.
  split; [vm_compute; repeat split; reflexivity|].
  intros H. specialize (H cancelled_after_return (Step 0)). cbv zeta in H.
  destruct H as [H|H]; [by vm_compute| |]; vm_compute in H; discriminate H.
Qed.

(** The run [cancelled_after_return], one step further: thread 0 has
    written CANCELLED and left [runner]; it evaluated line 155 once, it read
    its Event at line 158 and found it set, and the Event is still set. *)
Lemma cancelled_only_in_cleanup_witness :
  let sched := cancelled_after_return ++ [Step 0] in
  let σ := exec cpython sched initial in
  threads σ !! 0 = Some (closure_of 0 true returns_42, Exited None)
  /\ In (SetState CANCELLED) (trail 0 (hist σ))
  /\ cancelled_in_cleanup (trail 0 (hist σ))
  /\ read_flag_set cpython sched 0 (closure_of 0 true returns_42)
  /\ is_set 0 (mem σ) = true
  /\ finally_checks (trail 0 (hist σ)) = 1.
Proof.
  cbv zeta.
  assert (threads (exec cpython (cancelled_after_return ++ [Step 0]) initial) !! 0
          = Some (closure_of 0 true returns_42, Exited None)) as Hl
    by (vm_compute; reflexivity).
  assert (In (SetState CANCELLED)
            (trail 0 (hist (exec cpython (cancelled_after_return ++ [Step 0])
                              initial)))) as Hin
    by (vm_compute; left; reflexivity).
  split; [exact Hl|]. split; [exact Hin|].
  destruct (cancelled_only_in_cleanup cpython _ 0 _ _ Hl) as (Hc & Hf & _ & He & _).
  split; [exact Hc|].
  destruct (Hf (or_intror Hin)) as [Hr Hs].
  split; [exact Hr|]. split; [exact Hs|].
  rewrite (He eq_refl). vm_compute. reflexivity.
Defined.

(** Thread 0 has finished and left [runner]; cancel() on its Event, then a
    new run on another Event. *)
Lemma cancel_after_exit_is_noop_witness :
  let σ := exec cpython (until_running true returns_42 ++ repeat (Step 0) 20) initial in
  let later := [Run 1 true returns_7; Step 1; Step 1; Cancel 0; Step 1; Step 0] in
  lineage_exited 0 (threads σ)
  /\ (forall a, In a later -> runs_on 0 a = false)
  /\ result_state (mem σ) = FINISHED
  /\ observed (act cpython (Cancel 0) σ) = observed σ
  /\ observed (exec cpython later (act cpython (Cancel 0) σ))
     = observed (exec cpython later σ).
Proof.
  cbv zeta.
  set (σ := exec cpython (until_running true returns_42 ++ repeat (Step 0) 20) initial).
  set (later := [Run 1 true returns_7; Step 1; Step 1; Cancel 0; Step 1; Step 0]).
  assert (lineage_exited 0 (threads σ)) as Hx.
  { intros t th p Hl _. revert Hl. vm_compute. destruct t as [|t].
    - intros [= <- <-]. reflexivity.
    - destruct t; discriminate. }
  assert (forall a, In a later -> runs_on 0 a = false) as Hno.
  { intros a Hin. simpl in Hin.
    repeat (destruct Hin as [<-|Hin]; [reflexivity|]). destruct Hin. }
  split; [exact Hx|]. split; [exact Hno|]. split; [vm_compute; reflexivity|].
  destruct (cancel_after_exit_is_noop cpython σ 0 later Hx Hno) as (H1 & H2 & _).
  split; [exact H1|exact H2].
Defined.

(** A callback that returns 42, run to the end. *)
Lemma single_shot_publication_witness :
  let σ := exec cpython (until_running true returns_42) initial in
  let σ' := exec cpython (repeat (Step 0) 16) σ in
  threads σ !! 0 = Some (closure_of 0 true returns_42, SetRunning)
  /\ aborts cpython (closure_of 0 true returns_42) (mem σ) = false
  /\ remaining cpython (closure_of 0 true returns_42) SetRunning <= 16
  /\ result (mem σ') = Some 42 /\ error (mem σ') = None
  /\ result_state (mem σ') = FINISHED.
Proof.
  cbv zeta.
  set (σ := exec cpython (until_running true returns_42) initial).
  assert (threads σ !! 0 = Some (closure_of 0 true returns_42, SetRunning)) as Hl
    by (vm_compute; reflexivity).
  assert (aborts cpython (closure_of 0 true returns_42) (mem σ) = false) as Hab
    by (vm_compute; reflexivity).
  assert (remaining cpython (closure_of 0 true returns_42) SetRunning <= 16) as Hn
    by (vm_compute; lia).
  split; [exact Hl|]. split; [exact Hab|]. split; [exact Hn|].
  destruct (single_shot_publication cpython σ 0 _ 16 Hl Hab Hn) as [Hv _].
  destruct (Hv 42 eq_refl) as (Hr & He & Hs & _).
  split; [exact Hr|]. split; [exact He|]. rewrite Hs. vm_compute. reflexivity.
Defined.

(** A generator that yields 1, 2, 3, run to the end. *)
Lemma lazy_sequence_publication_witness :
  let sched := until_running true yields_1_2_3 in
  let σ := exec cpython sched initial in
  let σ' := exec cpython (repeat (Step 0) 83) σ in
  threads σ !! 0 = Some (closure_of 0 true yields_1_2_3, SetRunning)
  /\ outcome yields_1_2_3 = Return (Lazy (yields [(1, 1); (0, 2); (2, 3)] (GenStop 1)))
  /\ publications (trail 0 (hist σ)) `prefix_of` publish_all [1; 2; 3]
  /\ result (mem σ') = Some 3
  /\ result_state (mem σ') = FINISHED
  /\ publications (trail 0 (hist σ')) = publish_all [1; 2; 3].
Proof.
  cbv zeta.
  set (σ := exec cpython (until_running true yields_1_2_3) initial).
  assert (threads σ !! 0 = Some (closure_of 0 true yields_1_2_3, SetRunning)) as Hl
    by (vm_compute; reflexivity).
  split; [exact Hl|]. split; [reflexivity|].
  destruct (lazy_sequence_publication cpython (until_running true yields_1_2_3) 0
              _ _ _ Hl eq_refl) as [Hpre Hrun].
  split; [exact Hpre|].
  destruct (Hrun [(1, 1); (0, 2); (2, 3)] 1 83 eq_refl eq_refl) as (Hh & Hr & _ & Hs).
  - vm_compute. reflexivity.
  - vm_compute. lia.
  - subst σ. split; [exact Hr|]. split; [rewrite Hs; vm_compute; reflexivity|].
    rewrite Hh. vm_compute. reflexivity.
Defined.

(** Thread 1 waited for thread 0 and lost [running_thread.current] to
    thread 2 meanwhile. *)
Lemma superseded_while_waiting_exits_witness :
  let σ := exec cpython two_supersessions initial in
  threads σ !! 1 = Some (closure_of 1 true returns_7, Exited None)
  /\ In (IsCurrent line105 false) (trail 1 (hist σ))
  /\ trail 1 (hist σ) = [IsCurrent line105 false; SetState WAITING; SetPointer (Some 1)]
  /\ running_thread (mem σ) = Some 2.
Proof.
  cbv zeta.
  assert (threads (exec cpython two_supersessions initial) !! 1
          = Some (closure_of 1 true returns_7, Exited None)) as Hl
    by (vm_compute; reflexivity).
  assert (In (IsCurrent line105 false)
            (trail 1 (hist (exec cpython two_supersessions initial)))) as Hin
    by (vm_compute; left; reflexivity).
  split; [exact Hl|]. split; [exact Hin|].
  destruct (superseded_while_waiting_exits cpython two_supersessions 1 _ _ Hl Hin)
    as (_ & Htr & _).
  split; [exact Htr|]. vm_compute. reflexivity.
Defined.

(** intrusive_cancel=False and cancel() before the callback starts: the
    callback still returns 42, and the cleanup sets CANCELLED. *)
Lemma no_hook_without_intrusive_cancel_witness :
  let sched := until_running false returns_42 ++ [Cancel 0] in
  let σ := exec cpython sched initial in
  let σ' := exec cpython (repeat (Step 0) 16) σ in
  threads σ !! 0 = Some (closure_of 0 false returns_42, SetRunning)
  /\ th_intrusive (closure_of 0 false returns_42) = false
  /\ is_set 0 (mem σ) = true
  /\ result (mem σ') = Some 42
  /\ result_state (mem σ') = CANCELLED
  /\ aborted (trail 0 (hist σ)) = false.
Proof.
  cbv zeta.
  set (sched := until_running false returns_42 ++ [Cancel 0]).
  set (σ := exec cpython sched initial).
  assert (threads σ !! 0 = Some (closure_of 0 false returns_42, SetRunning)) as Hl
    by (vm_compute; reflexivity).
  split; [exact Hl|]. split; [reflexivity|]. split; [vm_compute; reflexivity|].
  destruct (no_hook_without_intrusive_cancel cpython sched 0 _ _ Hl eq_refl)
    as (_ & _ & Hna & _ & _ & _ & Hrun).
  subst σ.
  destruct (Hrun 16 eq_refl) as (_ & Hs & _ & Hv & _).
  - vm_compute. reflexivity.
  - vm_compute. reflexivity.
  - vm_compute. lia.
  - destruct (Hv 42 eq_refl) as (_ & Hr & _).
    split; [exact Hr|]. split; [exact Hs|exact Hna].
Defined.

(** intrusive_cancel=False and cancel() while the callback runs: the
    callback returns 42, the thread sets FINISHED, and the cleanup sets
    CANCELLED. *)
Example cancel_during_the_call :
  let σ := exec cpython (until_running false returns_42 ++ repeat (Step 0) 2
                           ++ [Cancel 0] ++ repeat (Step 0) 14) initial in
  result (mem σ) = Some 42 /\ result_state (mem σ) = CANCELLED
  /\ rev (trail 0 (hist σ))
     = [SetPointer (Some 0); SetState RUNNING; SetResult 42; SetError None;
        IsCurrent line142 true; SetState FINISHED; IsCurrent line155 true;
        SetPointer None; LogInfo "thread done!"; SetState CANCELLED].
Proof. vm_compute. repeat split; reflexivity. Qed.

(** A generator that yields 10 and 20 and then raises ValueError. *)
Lemma lazy_sequence_error_witness :
  let σ := exec cpython (until_running true yields_10_20_fails) initial in
  let σ' := exec cpython (repeat (Step 0) 64) σ in
  threads σ !! 0 = Some (closure_of 0 true yields_10_20_fails, SetRunning)
  /\ isinstance_Exception (Exception "ValueError") = true
  /\ aborts cpython (closure_of 0 true yields_10_20_fails) (mem σ) = false
  /\ remaining cpython (closure_of 0 true yields_10_20_fails) SetRunning <= 64
  /\ result (mem σ') = Some 20
  /\ error (mem σ') = Some (Exception "ValueError")
  /\ result_state (mem σ') = ERROR.
Proof.
  cbv zeta.
  set (σ := exec cpython (until_running true yields_10_20_fails) initial).
  assert (threads σ !! 0 = Some (closure_of 0 true yields_10_20_fails, SetRunning))
    as Hl by (vm_compute; reflexivity).
  assert (aborts cpython (closure_of 0 true yields_10_20_fails) (mem σ) = false)
    as Hab by (vm_compute; reflexivity).
  assert (remaining cpython (closure_of 0 true yields_10_20_fails) SetRunning <= 64)
    as Hn by (vm_compute; lia).
  split; [exact Hl|]. split; [reflexivity|]. split; [exact Hab|]. split; [exact Hn|].
  destruct (lazy_sequence_error cpython σ 0 _ 64 [(1, 10); (1, 20)] 1
              (Exception "ValueError") Hl eq_refl eq_refl Hab Hn)
    as (_ & Hr & He & Hs).
  split; [exact Hr|]. split; [exact He|]. rewrite Hs. vm_compute. reflexivity.
Defined.

(** * The further properties on concrete processes *)

(** cancel() on Event 0, then a run on it and steps of its thread: the
    Event is still set. *)
Lemma event_stays_set_witness :
  let σ := exec cpython [Cancel 0] (@initial nat) in
  let sched := Run 0 true returns_42 :: repeat (Step 0) 12 in
  is_set 0 (mem σ) = true
  /\ is_set 0 (mem (exec cpython sched σ)) = true.
Proof.
  cbv zeta.
  assert (is_set 0 (mem (exec cpython [Cancel 0] (@initial nat))) = true) as H
    by (vm_compute; reflexivity).
  split; [exact H|].
  exact (proj1 (event_stays_set cpython _ 0
                  (Run 0 true returns_42 :: repeat (Step 0) 12) H)).
Defined.

(** The thread of [cancelled_after_return] has written RUNNING, FINISHED
    and CANCELLED, in this order, and has left [runner]. *)
Lemma thread_lifecycle_witness :
  let σ := exec cpython (cancelled_after_return ++ [Step 0]) initial in
  threads σ !! 0 = Some (closure_of 0 true returns_42, Exited None)
  /\ lifecycle (states (trail 0 (hist σ))) = true
  /\ states (trail 0 (hist σ)) <> [].
Proof.
  cbv zeta.
  assert (threads (exec cpython (cancelled_after_return ++ [Step 0]) initial) !! 0
          = Some (closure_of 0 true returns_42, Exited None)) as Hl
    by (vm_compute; reflexivity).
  split; [exact Hl|].
  destruct (thread_lifecycle cpython _ 0 _ _ Hl) as (H1 & _ & H3).
  split; [exact H1|exact (H3 eq_refl)].
Defined.

(** Thread 1 stands in the join and waits for thread 0, which was started
    before it and has executed line 97. *)
Lemma join_target_is_started_witness :
  let σ := exec cpython waiting_for_first initial in
  threads σ !! 1 = Some (closure_of 1 true returns_7, Join 0)
  /\ waits_for (@Join nat 0) = Some 0
  /\ 0 <> 1
  /\ exists thw pw, threads σ !! 0 = Some (thw, pw) /\ registered pw = true.
Proof.
  cbv zeta.
  assert (threads (exec cpython waiting_for_first initial) !! 1
          = Some (closure_of 1 true returns_7, Join 0)) as Hl
    by (vm_compute; reflexivity).
  split; [exact Hl|]. split; [reflexivity|].
  exact (join_target_is_started cpython waiting_for_first 1 _ _ 0 Hl eq_refl).
Defined.

(** Thread 1 waits in the join; some thread can move (thread 0). *)
Lemma no_deadlock_witness :
  let σ := exec cpython waiting_for_first initial in
  threads σ !! 1 = Some (closure_of 1 true returns_7, Join 0)
  /\ is_exited (@Join nat 0) = false
  /\ can_move cpython σ.
Proof.
  cbv zeta.
  assert (threads (exec cpython waiting_for_first initial) !! 1
          = Some (closure_of 1 true returns_7, Join 0)) as Hl
    by (vm_compute; reflexivity).
  split; [exact Hl|]. split; [reflexivity|].
  exact (no_deadlock cpython waiting_for_first 1 _ _ Hl eq_refl).
Defined.

(** cancel() before the callback starts, with the hook installed: 42 is
    never stored and the state ends CANCELLED. *)
Lemma cancellation_discards_work_witness :
  let σ := exec cpython (until_running true returns_42 ++ [Cancel 0]) initial in
  let σ' := exec cpython (repeat (Step 0) 16) σ in
  threads σ !! 0 = Some (closure_of 0 true returns_42, SetRunning)
  /\ aborts cpython (closure_of 0 true returns_42) (mem σ) = true
  /\ 0 < events returns_42 + exit_events cpython
  /\ remaining cpython (closure_of 0 true returns_42) SetRunning <= 16
  /\ result (mem σ') = None /\ error (mem σ') = None
  /\ result_state (mem σ') = CANCELLED
  /\ threads σ' !! 0 = Some (closure_of 0 true returns_42, Exited None).
Proof.
  cbv zeta.
  set (σ := exec cpython (until_running true returns_42 ++ [Cancel 0]) initial).
  assert (threads σ !! 0 = Some (closure_of 0 true returns_42, SetRunning)) as Hl
    by (vm_compute; reflexivity).
  assert (aborts cpython (closure_of 0 true returns_42) (mem σ) = true) as Hab
    by (vm_compute; reflexivity).
  assert (0 < events returns_42 + exit_events cpython) as Hev
    by (vm_compute; lia).
  assert (remaining cpython (closure_of 0 true returns_42) SetRunning <= 16) as Hn
    by (vm_compute; lia).
  split; [exact Hl|]. split; [exact Hab|]. split; [exact Hev|]. split; [exact Hn|].
  destruct (cancellation_discards_work cpython σ 0 _ 16 Hl Hab Hev Hn)
    as (Hr & He & Hs & _ & Ht & _).
  split; [rewrite Hr; vm_compute; reflexivity|].
  split; [rewrite He; vm_compute; reflexivity|].
  split; [rewrite Hs; vm_compute; reflexivity|exact Ht].
Defined.

(** A KeyboardInterrupt in the callback: nothing is stored, the state stays
    RUNNING, and the exception leaves [runner]. *)
Lemma exception_outside_Exception_witness :
  let σ := exec cpython (until_running true interrupted) initial in
  let σ' := exec cpython (repeat (Step 0) 16) σ in
  threads σ !! 0 = Some (closure_of 0 true interrupted, SetRunning)
  /\ outcome interrupted = Raise (BaseException "KeyboardInterrupt")
  /\ isinstance_Exception (BaseException "KeyboardInterrupt") = false
  /\ aborts cpython (closure_of 0 true interrupted) (mem σ) = false
  /\ remaining cpython (closure_of 0 true interrupted) SetRunning <= 16
  /\ error (mem σ') = None
  /\ result_state (mem σ') = RUNNING
  /\ threads σ' !! 0
     = Some (closure_of 0 true interrupted,
             Exited (Some (BaseException "KeyboardInterrupt"))).
Proof.
  cbv zeta.
  set (σ := exec cpython (until_running true interrupted) initial).
  assert (threads σ !! 0 = Some (closure_of 0 true interrupted, SetRunning)) as Hl
    by (vm_compute; reflexivity).
  assert (aborts cpython (closure_of 0 true interrupted) (mem σ) = false) as Hab
    by (vm_compute; reflexivity).
  assert (remaining cpython (closure_of 0 true interrupted) SetRunning <= 16) as Hn
    by (vm_compute; lia).
  split; [exact Hl|]. split; [reflexivity|]. split; [reflexivity|].
  split; [exact Hab|]. split; [exact Hn|].
  destruct (exception_outside_Exception cpython σ 0 _ 16 _ Hl eq_refl eq_refl Hab Hn)
    as (_ & He & Hs & _ & Ht & _).
  split; [rewrite He; vm_compute; reflexivity|].
  split; [rewrite Hs; vm_compute; reflexivity|exact Ht].
Defined.

(** The first run of a process. *)
Lemma run_in_quiescent_process_witness :
  let σ' := exec cpython (Run 0 true returns_42 :: repeat (Step 0) 24) initial in
  quiescent (@initial nat)
  /\ aborts cpython (closure_for 0 true returns_42) (mem initial) = false
  /\ 4 + remaining cpython (closure_for 0 true returns_42) SetRunning <= 24
  /\ quiescent σ'
  /\ observed σ' = (FINISHED, Some 42, None).
Proof.
  cbv zeta.
  assert (quiescent (@initial nat)) as Hq by (split; reflexivity).
  assert (aborts cpython (closure_for 0 true returns_42) (mem initial) = false)
    as Hab by (vm_compute; reflexivity).
  assert (4 + remaining cpython (closure_for 0 true returns_42) SetRunning <= 24)
    as Hn by (vm_compute; lia).
  split; [exact Hq|]. split; [exact Hab|]. split; [exact Hn|].
  destruct (run_in_quiescent_process cpython initial 0 true returns_42 24 Hq Hab Hn)
    as (Hq' & _ & _ & _ & Hv & _).
  split; [exact Hq'|]. exact (Hv 42 eq_refl).
Defined.

(** Two effects in turn: the observer reads the value of the second. *)
Lemma effects_in_turn_witness :
  let σ' := exec cpython (in_turn 0 two_effects) initial in
  quiescent (@initial nat)
  /\ NoDup (event_of <$> two_effects)
  /\ Forall (fun r => event_of r ∉ cancel (mem (@initial nat))) two_effects
  /\ Forall (enough_steps cpython) two_effects
  /\ quiescent σ'
  /\ length (threads σ') = 2
  /\ observed σ' = (FINISHED, Some 7, None).
Proof.
  cbv zeta.
  assert (quiescent (@initial nat)) as Hq by (split; reflexivity).
  assert (NoDup (event_of <$> two_effects)) as Hnd
    by (apply (bool_decide_unpack _); vm_compute; exact I).
  assert (Forall (fun r => event_of r ∉ cancel (mem (@initial nat))) two_effects)
    as Hf by (apply (bool_decide_unpack _); vm_compute; exact I).
  assert (Forall (enough_steps cpython) two_effects) as He
    by (repeat constructor; vm_compute; lia).
  split; [exact Hq|]. split; [exact Hnd|]. split; [exact Hf|]. split; [exact He|].
  destruct (effects_in_turn cpython initial two_effects Hq Hnd Hf He)
    as (Hq' & Ht & _ & Hl).
  split; [exact Hq'|]. split; [exact (eq_trans (f_equal length Ht) eq_refl)|].
  exact (proj1 (Hl 1 true returns_7 24 eq_refl) 7 eq_refl).
Defined.
